(** * Sparse-constraint-system builder (frontend/cs/scs/api.go)

    A shallow embedding of the PLONK arithmetization front end: the
    operations of [api.go] are written as computations in a state-and-panic
    monad over the builder, and their emitted gates are given the usual
    meaning [qL*a + qR*b + qM*a*b + qO*o + qC = 0] over a prime field. *)

From Stdlib Require Import ZArith List Bool Lia String Zdivisibility Zdiv.
From Stdlib Require Import Morphisms Setoid.
Import ListNotations.
Local Open Scope string_scope.
Local Open Scope list_scope.
Local Open Scope Z_scope.

(** ** Data model *)

(** [expr.Term[E]]: a coefficient-scaled reference to one wire. *)
Record Term := mkTerm { VID : nat; Coeff : Z }.

(** [frontend.Variable]: an operand is either a compile-time constant (any
    Go value convertible to a field element, kept here as the integer it
    denotes before reduction) or a [Term]. *)
Inductive FVariable :=
| Const (z : Z)
| Wire (t : Term).

(** [constraint.CommitmentConstraint] *)
Inductive CommitmentConstraint := NOT | COMMITTED | COMMITMENT.

(** [sparseR1C[E]]; fields a Go literal leaves out hold the zero value. *)
Record sparseR1C := mkR1C {
  xa : nat; xb : nat; xc : nat;
  qL : Z; qR : Z; qO : Z; qM : Z; qC : Z;
  commitment : CommitmentConstraint }.

Inductive HintID := InvZeroHint | Bsb22CommitmentComputePlaceholder | NBitsHint.

(** A hint binding: function, inputs, freshly allocated output wires. *)
Record HintBinding := mkHint {
  hintFn : HintID; hintInputs : list FVariable; hintOutputs : list nat }.

(** [constraint.PlonkCommitment] *)
Record PlonkCommitment := mkCommitment {
  CommitmentIndex : nat; Committed : list nat }.

(** The builder together with the constraint system it owns. *)
Record builder := mkBuilder {
  constraints : list sparseR1C;
  nbVariables : nat;
  hints : list HintBinding;
  commitments : list PlonkCommitment;
  mtBooleans : list Term }.

(** ** The builder monad: state passing, with Go's [panic] as a second
    outcome that keeps the state reached when the panic was raised. *)
Inductive outcome (A : Type) :=
| Returned (a : A) (b : builder)
| Panicked (msg : string) (b : builder).
Arguments Returned {A} a b.
Arguments Panicked {A} msg b.

Definition M (A : Type) := builder -> outcome A.

Definition ret {A} (a : A) : M A := fun b => Returned a b.

Definition bind {A B} (m : M A) (k : A -> M B) : M B :=
  fun b => match m b with
           | Returned a b' => k a b'
           | Panicked msg b' => Panicked msg b'
           end.

Definition panic {A} (msg : string) : M A := fun b => Panicked msg b.

Notation "x <- m ;; k" := (bind m (fun x => k))
  (at level 61, m at next level, right associativity).
Notation "m ;;; k" := (bind m (fun _ => k))
  (at level 61, right associativity).

(** Go's [(value, error)] result pair of a fallible call. *)
Inductive result (A : Type) :=
| Ok (a : A)
| Err (msg : string).
Arguments Ok {A} a.
Arguments Err {A} msg.

Definition term_eqb (t u : Term) : bool :=
  Nat.eqb (VID t) (VID u) && Z.eqb (Coeff t) (Coeff u).

Section Scs.

(** The field modulus behind [builder.cs], and whether
    [smallfields.IsSmallField(builder.Field())] holds for it. *)
Variable q : Z.
Variable smallField : bool.

(** *** Field adapter ([builder.cs])

    Modelled from the spec: the adapter's add, sub, mul, neg, isZero,
    isOne and conversions, on integers read modulo [q]. *)
Definition fAdd (a b : Z) : Z := (a + b) mod q.
Definition fSub (a b : Z) : Z := (a - b) mod q.
Definition fMul (a b : Z) : Z := (a * b) mod q.
Definition fNeg (a : Z) : Z := (- a) mod q.
Definition fIsZero (a : Z) : bool := a mod q =? 0.
Definition tOne : Z := 1 mod q.
Definition tMinusOne : Z := (-1) mod q.
Definition fIsOne (a : Z) : bool := a mod q =? tOne.
Definition FromInterface (z : Z) : Z := z mod q.
Definition ToBigInt (e : Z) : Z := e.

(** Modelled from the spec: the field adapter's [invert(x) -> (inv, found)];
    the inverse is searched among the residues. *)
Definition fInverse (c : Z) : Z * bool :=
  match find (fun y => (c * Z.of_nat y) mod q =? tOne) (seq 0 (Z.to_nat q)) with
  | Some y => (Z.of_nat y, true)
  | None => (0, false)
  end.

(** Modelled from the spec: [fieldBitLength()], the bit length of the
    modulus. *)
Definition FieldBitLen : nat := Z.to_nat (Z.log2 q + 1).

(** *** Helpers of the builder that [api.go] calls *)

(** Modelled from the spec: [newInternalVariable] allocates a fresh wire
    from the monotonic counter; the term denoting it has coefficient one. *)
Definition newInternalVariable : M Term :=
  fun b => Returned (mkTerm (nbVariables b) tOne)
    (mkBuilder (constraints b) (S (nbVariables b)) (hints b)
               (commitments b) (mtBooleans b)).

(** Modelled from the spec: [addPlonkConstraint] ([addGate]) appends the
    gate to the constraint system. *)
Definition addPlonkConstraint (c : sparseR1C) : M unit :=
  fun b => Returned tt
    (mkBuilder (constraints b ++ [c]) (nbVariables b) (hints b)
               (commitments b) (mtBooleans b)).

Definition GetNbConstraints : M nat :=
  fun b => Returned (List.length (constraints b)) b.

Definition GetCommitments : M (list PlonkCommitment) :=
  fun b => Returned (commitments b) b.

(** Modelled from the spec: [AddCommitment] records the commitment in the
    bookkeeping table; it reports no error for a PLONK commitment. *)
Definition AddCommitment (c : PlonkCommitment) : M (option string) :=
  fun b => Returned None
    (mkBuilder (constraints b) (nbVariables b) (hints b)
               (commitments b ++ [c]) (mtBooleans b)).

(** Modelled from the spec: [NewHint] ([requestHint]) fails when the output
    count is not positive; otherwise it allocates that many fresh wires,
    records the binding and returns the wires as terms of coefficient one. *)
Definition NewHint (f : HintID) (nbOutputs : Z) (inputs : list FVariable)
  : M (result (list FVariable)) :=
  fun b =>
    if nbOutputs <=? 0 then
      Returned (Err "hint function must return at least one output") b
    else
      let outs := seq (nbVariables b) (Z.to_nat nbOutputs) in
      Returned (Ok (map (fun i => Wire (mkTerm i tOne)) outs))
        (mkBuilder (constraints b) (nbVariables b + Z.to_nat nbOutputs)
                   (hints b ++ [mkHint f inputs outs])
                   (commitments b) (mtBooleans b)).

(** Modelled from the spec: [IsBoolean], whether the system already knows
    the operand to be boolean: a constant 0 or 1, or a marked term. *)
Definition IsBoolean (v : FVariable) : M bool :=
  fun b => match v with
           | Const z => Returned (fIsZero z || fIsOne z) b
           | Wire t => Returned (existsb (term_eqb t) (mtBooleans b)) b
           end.

(** Modelled from the spec: [MarkBoolean] records a term as boolean. *)
Definition MarkBoolean (v : FVariable) : M unit :=
  fun b => match v with
           | Const _ => Returned tt b
           | Wire t => Returned tt
               (mkBuilder (constraints b) (nbVariables b) (hints b)
                          (commitments b) (t :: mtBooleans b))
           end.

(** Modelled from the spec: [AssertIsBoolean]. A constant outside {0,1}
    aborts; an operand already known boolean costs nothing; otherwise the
    term is marked and the gate [v - v*v = 0] is emitted. *)
Definition AssertIsBoolean (v : FVariable) : M unit :=
  match v with
  | Const z =>
      if fIsZero z || fIsOne z then ret tt
      else panic "assertIsBoolean failed"
  | Wire t =>
      known <- IsBoolean v ;;
      if known then ret tt
      else MarkBoolean v ;;;
           addPlonkConstraint
             (mkR1C (VID t) (VID t) 0
                    (Coeff t) 0 0 (fNeg (fMul (Coeff t) (Coeff t))) 0 NOT)
  end.

(** Modelled from the spec: [filterConstantSum] separates the variable
    terms from the constants, which it folds by field addition. *)
Fixpoint filterConstantSum_aux (l : list FVariable) (res : list Term) (k : Z)
  : list Term * Z :=
  match l with
  | [] => (res, k)
  | Const z :: l' => filterConstantSum_aux l' res (fAdd k (FromInterface z))
  | Wire t :: l' => filterConstantSum_aux l' (res ++ [t]) k
  end.

Definition filterConstantSum (l : list FVariable) : list Term * Z :=
  filterConstantSum_aux l [] (0 mod q).

(** Modelled from the spec: [filterConstantProd] folds the constants by
    field multiplication and stops with the constant 0 the moment the
    folded factor is zero. *)
Fixpoint filterConstantProd_aux (l : list FVariable) (res : list Term) (k : Z)
  : list Term * Z :=
  match l with
  | [] => (res, k)
  | Const z :: l' =>
      let k' := fMul k (FromInterface z) in
      if fIsZero k' then (res, 0) else filterConstantProd_aux l' res k'
  | Wire t :: l' => filterConstantProd_aux l' (res ++ [t]) k
  end.

Definition filterConstantProd (l : list FVariable) : list Term * Z :=
  filterConstantProd_aux l [] tOne.

(** Modelled from the spec: [reduce] merges the terms that share a wire by
    adding their coefficients; the order is that of first occurrence. The
    merged term is kept whatever its coefficient, as [Add] indexes the
    reduced list at 0. *)
Fixpoint mergeTerm (t : Term) (acc : list Term) : list Term :=
  match acc with
  | [] => [t]
  | u :: acc' =>
      if Nat.eqb (VID u) (VID t)
      then mkTerm (VID u) (fAdd (Coeff u) (Coeff t)) :: acc'
      else u :: mergeTerm t acc'
  end.

Definition reduce (l : list Term) : list Term :=
  fold_left (fun acc t => mergeTerm t acc) l [].

(** Modelled from the spec: [splitSum] chains binary addition gates
    [acc + next - newAcc = 0]; a constant is folded into the [qC] of a
    final gate; a single term without constant is returned as it is. *)
Fixpoint splitSum (acc : Term) (r : list Term) (k : option Z) : M Term :=
  match r with
  | [] =>
      match k with
      | None => ret acc
      | Some c =>
          o <- newInternalVariable ;;
          addPlonkConstraint
            (mkR1C (VID acc) 0 (VID o) (Coeff acc) 0 tMinusOne 0 c NOT) ;;;
          ret o
      end
  | t :: r' =>
      o <- newInternalVariable ;;
      addPlonkConstraint
        (mkR1C (VID acc) (VID t) (VID o)
               (Coeff acc) (Coeff t) tMinusOne 0 0 NOT) ;;;
      splitSum o r' k
  end.

(** Modelled from the spec: [splitProd] chains binary multiplication gates
    [qM*acc*next - newAcc = 0]; a single term is returned as it is. *)
Fixpoint splitProd (acc : Term) (r : list Term) : M Term :=
  match r with
  | [] => ret acc
  | t :: r' =>
      o <- newInternalVariable ;;
      addPlonkConstraint
        (mkR1C (VID acc) (VID t) (VID o)
               0 0 tMinusOne (fMul (Coeff acc) (Coeff t)) 0 NOT) ;;;
      splitProd o r'
  end.

(** Go's type assertion [v.(expr.Term[E])]. *)
Definition asTerm (v : FVariable) : M Term :=
  match v with
  | Wire t => ret t
  | Const _ => panic "interface conversion: not expr.Term"
  end.

(** Go's slice indexing. *)
Definition index {A} (l : list A) (i : nat) : M A :=
  match nth_error l i with
  | Some a => ret a
  | None => panic "index out of range"
  end.

(** *** The operations of api.go

    [builder.constantValue(v)] classifies an operand as a constant, whose
    field value is [FromInterface z], or as a term; here that is the match
    on the constructor of [FVariable], and a type assertion
    [v.(expr.Term[E])] after a failed [constantValue] is the [Wire] branch.
    The debug information [Inverse] attaches to its gate is left out. *)

Definition Neg (i1 : FVariable) : FVariable :=
  match i1 with
  | Const z => Const (ToBigInt (fNeg (FromInterface z)))
  | Wire v => Wire (mkTerm (VID v) (fNeg (Coeff v)))
  end.

Definition neg (l : list FVariable) : list FVariable := map Neg l.

Definition Add (i1 i2 : FVariable) (ins : list FVariable) : M FVariable :=
  let (vars, k) := filterConstantSum (i1 :: i2 :: ins) in
  match vars with
  | [] => ret (Const (ToBigInt k))
  | _ :: _ =>
      match reduce vars with
      | [] => panic "index out of range"
      | v0 :: rest =>
          if fIsZero k
          then t <- splitSum v0 rest None ;; ret (Wire t)
          else t <- splitSum v0 rest (Some k) ;; ret (Wire t)
      end
  end.

Definition Sub (i1 i2 : FVariable) (ins : list FVariable) : M FVariable :=
  match neg (i2 :: ins) with
  | [] => panic "index out of range"
  | r0 :: r => Add i1 r0 r
  end.

Definition mulConstant (t : Term) (m : Z) : Term :=
  mkTerm (VID t) (fMul (Coeff t) m).

Definition Mul (i1 i2 : FVariable) (ins : list FVariable) : M FVariable :=
  let (vars, k) := filterConstantProd (i1 :: i2 :: ins) in
  match vars with
  | [] => ret (Const (ToBigInt k))
  | v0 :: rest =>
      if fIsZero k then ret (Const 0)
      else if existsb (fun t => fIsZero (Coeff t)) vars then ret (Const 0)
      else t <- splitProd (mulConstant v0 k) rest ;; ret (Wire t)
  end.

Definition mulAccFastTrack (a b c : FVariable) : M (option FVariable) :=
  match a, b, c with
  | Wire aVar, Wire bVar0, Wire cVar0 =>
      let (bVar, cVar) :=
        if Nat.eqb (VID aVar) (VID bVar0) then (cVar0, bVar0)
        else (bVar0, cVar0) in
      if negb (Nat.eqb (VID aVar) (VID cVar)) then ret None
      else
        res <- newInternalVariable ;;
        addPlonkConstraint
          (mkR1C (VID aVar) (VID bVar) (VID res)
                 (Coeff aVar) 0 tMinusOne
                 (fMul (Coeff bVar) (Coeff cVar)) 0 NOT) ;;;
        ret (Some (Wire res))
  | _, _, _ => ret None
  end.

Definition MulAcc (a b c : FVariable) : M FVariable :=
  fastTrack <- mulAccFastTrack a b c ;;
  match fastTrack with
  | Some r => ret r
  | None => p <- Mul b c [] ;; Add a p []
  end.

Definition Inverse (i1 : FVariable) : M FVariable :=
  match i1 with
  | Const z =>
      let c := FromInterface z in
      if fIsZero c then panic "inverse by constant(0)"
      else ret (Const (ToBigInt (fst (fInverse c))))
  | Wire t =>
      res <- newInternalVariable ;;
      addPlonkConstraint
        (mkR1C (VID res) (VID t) 0 0 0 0 (Coeff t) tMinusOne NOT) ;;;
      ret (Wire res)
  end.

Definition DivUnchecked (i1 i2 : FVariable) : M FVariable :=
  match i1, i2 with
  | Const z1, Const z2 =>
      let c1 := FromInterface z1 in
      let c2 := FromInterface z2 in
      if fIsZero c2 then panic "inverse by constant(0)"
      else ret (Const (ToBigInt (fMul (fst (fInverse c2)) c1)))
  | Wire t1, Const z2 =>
      let c2 := FromInterface z2 in
      if fIsZero c2 then panic "inverse by constant(0)"
      else ret (Wire (mulConstant t1 (fst (fInverse c2))))
  | Const z1, Wire _ =>
      res <- Inverse i2 ;;
      t <- asTerm res ;;
      ret (Wire (mulConstant t (FromInterface z1)))
  | Wire t1, Wire t2 =>
      res <- newInternalVariable ;;
      addPlonkConstraint
        (mkR1C (VID res) (VID t2) (VID t1)
               0 0 (fNeg (Coeff t1)) (Coeff t2) 0 NOT) ;;;
      ret (Wire res)
  end.

Definition Div (i1 i2 : FVariable) : M FVariable :=
  Inverse i2 ;;; DivUnchecked i1 i2.

Definition b2z (b : bool) : Z := if b then 1 else 0.

(** The one-constant branch of [Xor]: [(1 - 2b)*a + b = res]. *)
Definition xorConstant (xa : Term) (_b : Z) (res : Term) : M FVariable :=
  let qL0 := fMul (fSub (fSub tOne _b) _b) (Coeff xa) in
  addPlonkConstraint
    (mkR1C (VID xa) 0 (VID res) qL0 0 tMinusOne 0 _b NOT) ;;;
  ret (Wire res).

Definition Xor (a b : FVariable) : M FVariable :=
  AssertIsBoolean a ;;;
  AssertIsBoolean b ;;;
  match a, b with
  | Const za, Const zb =>
      ret (Const (Z.lxor (b2z (fIsOne (FromInterface za)))
                         (b2z (fIsOne (FromInterface zb)))))
  | Const za, Wire xb =>
      res <- newInternalVariable ;;
      MarkBoolean (Wire res) ;;;
      xorConstant xb (FromInterface za) res
  | Wire xa, Const zb =>
      res <- newInternalVariable ;;
      MarkBoolean (Wire res) ;;;
      xorConstant xa (FromInterface zb) res
  | Wire xa, Wire xb =>
      res <- newInternalVariable ;;
      MarkBoolean (Wire res) ;;;
      let qM0 := fMul (fMul (fAdd tOne tOne) (Coeff xa)) (Coeff xb) in
      addPlonkConstraint
        (mkR1C (VID xa) (VID xb) (VID res)
               (fNeg (Coeff xa)) (fNeg (Coeff xb)) tOne qM0 0 NOT) ;;;
      ret (Wire res)
  end.

Definition Or (a b : FVariable) : M FVariable :=
  AssertIsBoolean a ;;;
  AssertIsBoolean b ;;;
  match a, b with
  | Const za, Const zb =>
      if fIsOne (FromInterface za) || fIsOne (FromInterface zb)
      then ret (Const 1) else ret (Const 0)
  | Const za, Wire _ =>
      if fIsOne (FromInterface za) then ret (Const 1) else ret b
  | Wire _, Const zb =>
      if fIsOne (FromInterface zb) then ret (Const 1) else ret a
  | Wire xa, Wire xb =>
      res <- newInternalVariable ;;
      MarkBoolean (Wire res) ;;;
      addPlonkConstraint
        (mkR1C (VID xa) (VID xb) (VID res)
               (fNeg (Coeff xa)) (fNeg (Coeff xb)) tOne
               (fMul (Coeff xa) (Coeff xb)) 0 NOT) ;;;
      ret (Wire res)
  end.

Definition And (a b : FVariable) : M FVariable :=
  AssertIsBoolean a ;;;
  AssertIsBoolean b ;;;
  res <- Mul a b [] ;;
  MarkBoolean res ;;;
  ret res.

Definition Select (b i1 i2 : FVariable) : M FVariable :=
  match b with
  | Const z =>
      isb <- IsBoolean b ;;
      if negb isb then panic "should be 0 or 1"
      else if fIsZero (FromInterface z) then ret i2
      else ret i1
  | Wire _ =>
      AssertIsBoolean b ;;;
      u <- Sub i1 i2 [] ;;
      l <- Mul u b [] ;;
      Add l i2 []
  end.

Definition IsZero (i1 : FVariable) : M FVariable :=
  match i1 with
  | Const z =>
      if fIsZero (FromInterface z) then ret (Const 1) else ret (Const 0)
  | Wire a =>
      m <- newInternalVariable ;;
      x <- NewHint InvZeroHint 1 [Wire a] ;;
      match x with
      | Err msg => panic msg
      | Ok outs =>
          x0 <- index outs 0 ;;
          X <- asTerm x0 ;;
          addPlonkConstraint
            (mkR1C (VID a) (VID X) (VID m)
                   0 0 tOne (Coeff a) tMinusOne NOT) ;;;
          addPlonkConstraint
            (mkR1C (VID a) (VID m) 0 0 0 0 (Coeff a) 0 NOT) ;;;
          MarkBoolean (Wire m) ;;;
          ret (Wire m)
      end
  end.

(** The bit-decomposition sub-protocol [bits.ToBinary] of [std/math/bits]
    is an external collaborator of this file; [Cmp] is parameterised by
    it. *)
Variable bitsToBinary : FVariable -> nat -> M (list FVariable).



Fixpoint filterConstants (v : list FVariable) : list FVariable :=
  match v with
  | [] => []
  | Wire t :: v' => Wire t :: filterConstants v'
  | Const _ :: v' => filterConstants v'
  end.

(** The [range] loop of [Commit]: the gate indices it records. *)
Fixpoint commitLoop (v : list FVariable) : M (list nat) :=
  match v with
  | [] => ret []
  | vI :: v' =>
      vINeg <- asTerm (Neg vI) ;;
      n <- GetNbConstraints ;;
      addPlonkConstraint
        (mkR1C (VID vINeg) 0 0 (Coeff vINeg) 0 0 0 0 COMMITTED) ;;;
      rest <- commitLoop v' ;;
      ret (n :: rest)
  end.

(** [Commit] returns Go's pair [(frontend.Variable, error)]. *)
Definition Commit (v0 : list FVariable)
  : M (option FVariable * option string) :=
  if smallField
  then ret (None, Some "commitment not supported for small field")
  else
    cmts <- GetCommitments ;;
    let v := filterConstants v0 in
    committed <- commitLoop v ;;
    let inputs := Const (Z.of_nat (List.length cmts)) :: v in
    h <- NewHint Bsb22CommitmentComputePlaceholder 1 inputs ;;
    match h with
    | Err msg => ret (None, Some msg)
    | Ok outs =>
        o0 <- index outs 0 ;;
        commitmentVar <- asTerm (Neg o0) ;;
        commitmentConstraintIndex <- GetNbConstraints ;;
        addPlonkConstraint
          (mkR1C (VID commitmentVar) 0 0 (Coeff commitmentVar) 0 0 0 0
                 COMMITMENT) ;;;
        o0' <- index outs 0 ;;
        e <- AddCommitment (mkCommitment commitmentConstraintIndex committed) ;;
        ret (Some o0', e)
    end.

(** *** Meaning of gates and operands under a wire assignment *)

Definition value (w : nat -> Z) (v : FVariable) : Z :=
  match v with
  | Const z => z mod q
  | Wire t => (Coeff t * w (VID t)) mod q
  end.

Definition gate_holds (w : nat -> Z) (g : sparseR1C) : Prop :=
  (qL g * w (xa g) + qR g * w (xb g) + qM g * (w (xa g) * w (xb g))
   + qO g * w (xc g) + qC g) mod q = 0.



End Scs.

(** The terms among a list of operands, in order. *)
Fixpoint wires (l : list FVariable) : list Term :=
  match l with
  | [] => []
  | Wire t :: l' => t :: wires l'
  | Const _ :: l' => wires l'
  end.

(** Trial division, to discharge primality of a concrete modulus. *)
Definition no_divisor_below (p : Z) (n : nat) : bool :=
  forallb (fun d => negb (p mod Z.of_nat d =? 0)) (seq 2 (n - 2)).

Definition is_prime_b (p : Z) : bool :=
  (1 <? p) && no_divisor_below p (Z.to_nat p).

(** ** Vocabulary of the statements *)

(** [b'] is [b] with exactly the gates [gs] appended. *)
Definition emits (b b' : builder) (gs : list sparseR1C) : Prop :=
  constraints b' = constraints b ++ gs.

(** The gates with a multiplication term. *)
Definition mulGates (gs : list sparseR1C) : list sparseR1C :=
  filter (fun g => negb (qM g =? 0)) gs.

(** Unreduced value of a term, and sums and products of operand values. *)
Definition termValue (w : nat -> Z) (t : Term) : Z := Coeff t * w (VID t).

Fixpoint sumTerms (w : nat -> Z) (l : list Term) : Z :=
  match l with
  | [] => 0
  | t :: l' => termValue w t + sumTerms w l'
  end.

Fixpoint prodTerms (w : nat -> Z) (l : list Term) : Z :=
  match l with
  | [] => 1
  | t :: l' => termValue w t * prodTerms w l'
  end.

Fixpoint sumValues (q : Z) (w : nat -> Z) (l : list FVariable) : Z :=
  match l with
  | [] => 0
  | v :: l' => value q w v + sumValues q w l'
  end.

Fixpoint prodValues (q : Z) (w : nat -> Z) (l : list FVariable) : Z :=
  match l with
  | [] => 1
  | v :: l' => value q w v * prodValues q w l'
  end.

(** [m] run from [b] returns (it does not panic), having appended the
    gates [gs]; [P] relates the result, the final state and those gates. *)
Definition returns {A} (m : M A) (b : builder)
    (P : A -> builder -> list sparseR1C -> Prop) : Prop :=
  exists a b' gs, m b = Returned a b' /\ emits b b' gs /\ P a b' gs.

Definition constOf (k : option Z) : Z :=
  match k with Some c => c | None => 0 end.

(** An operand the boolean operations accept without panicking: a
    constant 0 or 1, or any term. *)
Definition boolish (q : Z) (v : FVariable) : Prop :=
  match v with
  | Const z => z mod q = 0 \/ z mod q = 1
  | Wire _ => True
  end.

Definition isConst (v : FVariable) : bool :=
  match v with Const _ => true | Wire _ => false end.

(** The two gates of [IsZero] on the term [a], with [m] the result wire and
    [x] the hint output. *)
Definition isZeroGate1 (q : Z) (a : Term) (x m : nat) : sparseR1C :=
  mkR1C (VID a) x m 0 0 (tOne q) (Coeff a) (tMinusOne q) NOT.

Definition isZeroGate2 (a : Term) (m : nat) : sparseR1C :=
  mkR1C (VID a) m 0 0 0 0 (Coeff a) 0 NOT.

(** The scan of [Cmp] on the binary digits of two integers, from digit
    [i-1] down to digit 0: the running result is frozen at the first
    position where the digits differ. *)
Definition bitAt (x : Z) (i : nat) : Z := Z.b2z (Z.testbit x (Z.of_nat i)).






(** The gate of the fast path of [MulAcc]. *)
Definition mulAccGate (q : Z) (a b c : Term) (res : nat) : sparseR1C :=
  mkR1C (VID a) (if Nat.eqb (VID a) (VID b) then VID c else VID b) res
        (Coeff a) 0 (tMinusOne q) (fMul q (Coeff b) (Coeff c)) 0 NOT.

(** [b] with one fresh wire allocated and the gates [gs] appended. *)
Definition withGates (b : builder) (gs : list sparseR1C) : builder :=
  mkBuilder (constraints b ++ gs) (S (nbVariables b)) (hints b)
            (commitments b) (mtBooleans b).




(** ** Concrete inputs *)

(** A builder with three input wires, the first of them known boolean. *)
Definition exampleBuilder : builder :=
  mkBuilder [] 3 [] [] [mkTerm 0 1].

Definition t0 : Term := mkTerm 0 1.
Definition t1 : Term := mkTerm 1 1.
Definition t2 : Term := mkTerm 2 3.

(** The modulus of the BabyBear field, one of the small fields. *)
Definition babyBear : Z := 2013265921.

(** A stand-in for the external bit decomposition, to run [Cmp] on
    concrete inputs: a constant decomposes at compile time into constant
    digits; for a term the digits are requested as hint outputs (the
    constraints the sub-protocol adds are its own). *)
Definition digitsToBinary (q : Z) (v : FVariable) (n : nat)
  : M (list FVariable) :=
  match v with
  | Const z =>
      ret (map (fun i => Const (bitAt (z mod q) i)) (seq 0 n))
  | Wire _ =>
      h <- NewHint q NBitsHint (Z.of_nat n) [v] ;;
      match h with
      | Ok outs => ret outs
      | Err msg => panic msg
      end
  end.

(** ** Further operations of api.go *)

(** [ToBinary]: the optional width is Go's variadic [n ...int]; the
    decomposition itself is the external [bits.ToBinary]. *)
Definition ToBinary (q : Z)
    (bitsToBinary : FVariable -> nat -> M (list FVariable))
    (i1 : FVariable) (n : list Z) : M (list FVariable) :=
  match n with
  | [n0] =>
      if n0 <? 0 then panic "invalid n"
      else bitsToBinary i1 (Z.to_nat n0)
  | _ => bitsToBinary i1 (FieldBitLen q)
  end.

Definition Lookup2 (q : Z) (b0 b1 i0 i1 i2 i3 : FVariable) : M FVariable :=
  AssertIsBoolean q b0 ;;;
  AssertIsBoolean q b1 ;;;
  match b0, b1 with
  | Const z0, Const z1 =>
      let c0 := fIsOne q (FromInterface q z0) in
      let c1 := fIsOne q (FromInterface q z1) in
      if negb c0 && negb c1 then ret i0
      else if c0 && negb c1 then ret i1
      else if c0 && c1 then ret i3
      else ret i2
  | _, _ =>
      tmp1 <- Sub q i3 i2 [] ;;
      tmp <- Sub q i0 i1 [] ;;
      tmp1a <- Add q tmp1 tmp [] ;;
      tmp1b <- Mul q tmp1a b1 [] ;;
      tmp1c <- Sub q tmp1b tmp [] ;;
      tmp2 <- Mul q tmp1c b0 [] ;;
      res <- Sub q i2 i0 [] ;;
      resa <- Mul q res b1 [] ;;
      Add q resa tmp2 [i0]
  end.

(** [EvaluatePlonkExpression]; the four coefficients are Go [int]s. *)
Definition EvaluatePlonkExpression (q : Z) (a b : FVariable)
    (cL cR cM cC : Z) : M FVariable :=
  match a, b with
  | Wire ta, Wire tb =>
      res <- newInternalVariable q ;;
      addPlonkConstraint
        (mkR1C (VID ta) (VID tb) (VID res)
               (fMul q (FromInterface q cL) (Coeff ta))
               (fMul q (FromInterface q cR) (Coeff tb))
               (tMinusOne q)
               (fMul q (FromInterface q cM)
                       (fMul q (Coeff ta) (Coeff tb)))
               (FromInterface q cC) NOT) ;;;
      ret (Wire res)
  | _, _ =>
      m1 <- Mul q a (Const cL) [] ;;
      m2 <- Mul q b (Const cR) [] ;;
      m3 <- Mul q a b [Const cM] ;;
      Add q m1 m2 [m3; Const cC]
  end.


(** All the gates of a builder hold under [w]. *)
Definition sat (q : Z) (w : nat -> Z) (b : builder) : Prop :=
  Forall (gate_holds q w) (constraints b).

(** Every term the builder has marked boolean is 0 or 1 under [w]. *)
Definition marksSound (q : Z) (w : nat -> Z) (b : builder) : Prop :=
  forall t, In t (mtBooleans b) ->
    value q w (Wire t) = 0 \/ value q w (Wire t) = 1.

(** The operand is 0 or 1 under [w]. *)
Definition isBit (q : Z) (w : nat -> Z) (v : FVariable) : Prop :=
  value q w v = 0 \/ value q w v = 1.

(** The wires an operand, a gate or a builder refers to are allocated:
    their indices lie below the counter [n] of the builder. *)
Definition wfTerm (n : nat) (t : Term) : Prop := (VID t < n)%nat.

Definition wfVar (n : nat) (v : FVariable) : Prop :=
  match v with
  | Const _ => True
  | Wire t => wfTerm n t
  end.

Definition wfGate (n : nat) (g : sparseR1C) : Prop :=
  (xa g < n)%nat /\ (xb g < n)%nat /\ (xc g < n)%nat.

Definition wfBuilder (b : builder) : Prop :=
  Forall (wfGate (nbVariables b)) (constraints b).

(** If [m] returns from [b], the counter did not decrease, the result
    satisfies [R] at the new counter and the gates appended refer to
    allocated wires only. *)
Definition wfFrom {A} (R : nat -> A -> Prop) (m : M A) (b : builder) : Prop :=
  forall a b', m b = Returned a b' ->
    (nbVariables b <= nbVariables b')%nat /\
    R (nbVariables b') a /\
    exists gs, emits b b' gs /\ Forall (wfGate (nbVariables b')) gs.

(** ** Facts that hold over any modulus *)

Section Structure.

Variable q : Z.

Lemma bind_Returned {A B} (m : M A) (k : A -> M B) b a b' :
  m b = Returned a b' -> bind m k b = k a b'.
Proof. unfold bind; intros ->; reflexivity. Qed.

Lemma bind_Panicked {A B} (m : M A) (k : A -> M B) b msg b' :
  m b = Panicked msg b' -> bind m k b = Panicked msg b'.
Proof. unfold bind; intros ->; reflexivity. Qed.

Lemma fIsZero_FromInterface z :
  fIsZero q (FromInterface q z) = fIsZero q z.
Proof. unfold fIsZero, FromInterface; now rewrite Zmod_mod. Qed.

Lemma fIsZero_true z : fIsZero q z = true <-> z mod q = 0.
Proof. unfold fIsZero; apply Z.eqb_eq. Qed.

Lemma filterConstants_wires v : filterConstants v = map Wire (wires v).
Proof.
  induction v as [|[z|t] v IH]; simpl; auto. now rewrite IH.
Qed.


(** The product fold either stopped on the literal 0 or collected every
    term of the operand list. *)
Lemma filterConstantProd_aux_spec (l : list FVariable) : forall res k,
  snd (filterConstantProd_aux q l res k) = 0 \/
  fst (filterConstantProd_aux q l res k) = res ++ wires l.
Proof.
  induction l as [|[z|t] l IH]; intros res k.
  - right. simpl. now rewrite app_nil_r.
  - cbn [filterConstantProd_aux wires].
    destruct (fIsZero q (fMul q k (FromInterface q z))).
    + left; reflexivity.
    + apply IH.
  - cbn [filterConstantProd_aux wires].
    destruct (IH (res ++ [t]) k) as [H|H]; [left; exact H|right].
    rewrite H, <- app_assoc; reflexivity.
Qed.

Lemma In_wires t l : In (Wire t) l <-> In t (wires l).
Proof.
  induction l as [|[z|u] l IH]; simpl.
  - tauto.
  - rewrite <- IH. split; [intros [H|H]; [discriminate|exact H]|auto].
  - rewrite <- IH. split; intros [H|H]; auto; left; congruence.
Qed.

(** A constant operand that is zero in the field stops the product fold
    at the literal 0. *)
Lemma filterConstantProd_aux_zero (l : list FVariable) z : forall res k,
  In (Const z) l -> fIsZero q z = true ->
  snd (filterConstantProd_aux q l res k) = 0.
Proof.
  induction l as [|[z'|t] l IH]; intros res k Hin Hz.
  - destruct Hin.
  - cbn [filterConstantProd_aux].
    destruct (fIsZero q (fMul q k (FromInterface q z'))) eqn:E;
      [reflexivity|].
    destruct Hin as [Heq|Hin]; [|now apply IH].
    injection Heq as ->. exfalso.
    apply fIsZero_true in Hz.
    unfold fIsZero, fMul, FromInterface in E.
    rewrite Hz, Z.mul_0_r, !Zmod_0_l in E. discriminate.
  - cbn [filterConstantProd_aux]. destruct Hin as [Heq|Hin];
      [discriminate|now apply IH].
Qed.

(** ** [filterConstants], [ToBinary] and [Commit] *)

(** [filterConstants] keeps exactly the operands that are terms, in their
    order, and filtering again changes nothing. *)
Theorem filterConstants_keeps_terms (v v' : list FVariable) :
  Forall (fun x => isConst x = false) (filterConstants v) /\
  (forall t, In (Wire t) (filterConstants v) <-> In (Wire t) v) /\
  filterConstants (filterConstants v) = filterConstants v /\
  filterConstants (v ++ v') = filterConstants v ++ filterConstants v' /\
  (List.length (filterConstants v) <= List.length v)%nat.
Proof.
  repeat split.
  - induction v as [|[z|t] v IH]; cbn [filterConstants]; auto.
  - induction v as [|[z|u] v IH]; cbn [filterConstants In];
      intuition congruence.
  - induction v as [|[z|u] v IH]; cbn [filterConstants In];
      intuition congruence.
  - induction v as [|[z|u] v IH]; cbn [filterConstants]; auto.
    now rewrite IH.
  - induction v as [|[z|u] v IH]; cbn [filterConstants app]; auto.
    now rewrite IH.
  - induction v as [|[z|u] v IH]; cbn [filterConstants List.length]; lia.
Qed.

(** [ToBinary] checks the width before anything else: one negative width
    panics and leaves the builder as it is; one width that is not negative
    is handed to the decomposition; no width, or more than one, means the
    bit length of the field. *)
Theorem ToBinary_width
    (bitsToBinary : FVariable -> nat -> M (list FVariable))
    (i1 : FVariable) (n : list Z) (b : builder) :
  (forall k, n = [k] -> k < 0 ->
     ToBinary q bitsToBinary i1 n b = Panicked "invalid n" b) /\
  (forall k, n = [k] -> 0 <= k ->
     ToBinary q bitsToBinary i1 n b = bitsToBinary i1 (Z.to_nat k) b) /\
  (List.length n <> 1%nat ->
     ToBinary q bitsToBinary i1 n b = bitsToBinary i1 (FieldBitLen q) b).
Proof.
  split; [|split].
  - intros k -> Hk. cbn [ToBinary].
    now rewrite (proj2 (Z.ltb_lt k 0) Hk).
  - intros k -> Hk. cbn [ToBinary].
    now rewrite (proj2 (Z.ltb_ge k 0) Hk).
  - intros Hn. destruct n as [|k [|k' n]]; cbn [ToBinary]; try reflexivity.
    now contradiction Hn.
Qed.


(** [Commit] never looks at its constant operands: two operand lists with
    the same terms give the same outcome, over any field. *)
Theorem Commit_ignores_constants (smallField : bool)
    (v v' : list FVariable) (b : builder) :
  wires v = wires v' ->
  Commit q smallField v b = Commit q smallField v' b.
Proof.
  intros H. unfold Commit. rewrite !filterConstants_wires, H. reflexivity.
Qed.



End Structure.

(** ** Abort paths, short circuits and commitments *)

Section Aborts.

Variable q : Z.

(** C7: a compile-time constant divisor (or inverted operand) that is zero
    in the field makes [Inverse], [DivUnchecked] and [Div] panic, and the
    state at the panic is the state of the call: no gate was emitted. *)
Theorem zero_constant_divisor_panics (z : Z) (i1 : FVariable) (b : builder) :
  z mod q = 0 ->
  Inverse q (Const z) b = Panicked "inverse by constant(0)" b /\
  DivUnchecked q i1 (Const z) b = Panicked "inverse by constant(0)" b /\
  Div q i1 (Const z) b = Panicked "inverse by constant(0)" b.
Proof.
  intros Hz.
  assert (E : fIsZero q (FromInterface q z) = true)
    by (rewrite fIsZero_FromInterface; now apply fIsZero_true).
  assert (HI : Inverse q (Const z) b = Panicked "inverse by constant(0)" b)
    by (unfold Inverse; rewrite E; reflexivity).
  split; [exact HI|split].
  - destruct i1 as [z1|t1]; unfold DivUnchecked; rewrite E; reflexivity.
  - unfold Div. now apply bind_Panicked.
Qed.

(** C4: when the operands of [Mul] hold a variable and the folded constant
    factor is zero (in particular when a constant operand is zero), or some
    variable term has a zero coefficient, [Mul] returns the constant 0 and
    leaves the builder untouched: no gate is emitted. *)
Theorem Mul_zero_factor (i1 i2 : FVariable) (ins : list FVariable)
    (b : builder) :
  (exists t, In (Wire t) (i1 :: i2 :: ins)) ->
  fIsZero q (snd (filterConstantProd q (i1 :: i2 :: ins))) = true \/
  (exists z, In (Const z) (i1 :: i2 :: ins) /\ fIsZero q z = true) \/
  (exists t, In (Wire t) (i1 :: i2 :: ins) /\ fIsZero q (Coeff t) = true) ->
  Mul q i1 i2 ins b = Returned (Const 0) b.
Proof.
  intros [t0 Ht0] Hzero.
  assert (Hzero' :
    fIsZero q (snd (filterConstantProd q (i1 :: i2 :: ins))) = true \/
    (exists t, In (Wire t) (i1 :: i2 :: ins) /\ fIsZero q (Coeff t) = true)).
  { destruct Hzero as [H|[(z & Hin & Hz)|H]]; [left; exact H| |right; exact H].
    left. unfold filterConstantProd.
    rewrite (filterConstantProd_aux_zero q _ z [] (tOne q) Hin Hz).
    unfold fIsZero. now rewrite Zmod_0_l. }
  clear Hzero. rename Hzero' into Hzero.
  unfold Mul.
  pose proof (filterConstantProd_aux_spec q (i1 :: i2 :: ins) [] (tOne q))
    as Hspec.
  fold (filterConstantProd q (i1 :: i2 :: ins)) in Hspec.
  destruct (filterConstantProd q (i1 :: i2 :: ins)) as [vars k] eqn:E.
  cbn [fst snd app] in *.
  assert (Hk0 : k = 0 -> fIsZero q k = true)
    by (intros ->; unfold fIsZero; now rewrite Zmod_0_l).
  destruct vars as [|v0 rest].
  - destruct Hspec as [->|Hw]; [reflexivity|].
    apply In_wires in Ht0. rewrite <- Hw in Ht0. contradiction.
  - destruct (fIsZero q k) eqn:Ek; [reflexivity|].
    destruct Hspec as [Hk|Hw]; [discriminate (Hk0 Hk)|].
    destruct Hzero as [Hz|[t [Ht Hc]]]; [discriminate|].
    assert (Hex : existsb (fun t => fIsZero q (Coeff t)) (v0 :: rest) = true).
    { apply existsb_exists. exists t. split; [|exact Hc].
      rewrite Hw. now apply In_wires. }
    rewrite Hex. reflexivity.
Qed.

(** C9 (as the code has it): over a small field [Commit] returns Go's
    [(nil, error)] pair to its caller; it neither panics nor touches the
    builder. *)
Theorem Commit_small_field_returns_error (v : list FVariable) (b : builder) :
  Commit q true v b =
  Returned (None, Some "commitment not supported for small field") b.
Proof. reflexivity. Qed.


End Aborts.

(** ** Arithmetic modulo a prime *)

Section Field.

Variable q : Z.
Hypothesis Hq : Z.prime q.

Local Notation "a == b" := (eqm q a b) (at level 70).
#[local] Instance eqm_q_equiv : Equivalence (eqm q) := eqm_setoid q.
#[local] Instance add_eqm_q : Proper (eqm q ==> eqm q ==> eqm q) Z.add :=
  Zplus_eqm q.
#[local] Instance sub_eqm_q : Proper (eqm q ==> eqm q ==> eqm q) Z.sub :=
  Zminus_eqm q.
#[local] Instance mul_eqm_q : Proper (eqm q ==> eqm q ==> eqm q) Z.mul :=
  Zmult_eqm q.
#[local] Instance opp_eqm_q : Proper (eqm q ==> eqm q) Z.opp := Zopp_eqm q.

Lemma q_gt_1 : 1 < q.
Proof. exact (proj1 Hq). Qed.

Lemma mod_eqm a : a mod q == a.
Proof. apply Zmod_eqm. Qed.

Lemma tOne_eq : tOne q = 1.
Proof. unfold tOne. apply Z.mod_small. pose proof q_gt_1. lia. Qed.

Lemma tMinusOne_eqm : tMinusOne q == -1.
Proof. unfold tMinusOne. apply mod_eqm. Qed.

Lemma eqm_0_iff a : a == 0 <-> a mod q = 0.
Proof. unfold eqm. now rewrite Zmod_0_l. Qed.



(** A prime field has no zero divisors. *)
Lemma eqm_mul_0 a b : a * b == 0 -> a == 0 \/ b == 0.
Proof.
  intros H0. pose proof (proj1 (eqm_0_iff _) H0) as H.
  assert (Hq0 : q <> 0) by (pose proof q_gt_1; lia).
  apply Z.mod_divide in H; [|exact Hq0].
  apply (Z.divide_prime_mul _ _ _ Hq) in H.
  destruct H as [H|H]; [left|right]; apply eqm_0_iff;
    now apply Z.mod_divide.
Qed.

Lemma value_canonical w v : value q w v mod q = value q w v.
Proof. destruct v; simpl; apply Zmod_mod. Qed.


Lemma value_Wire w t : value q w (Wire t) == termValue w t.
Proof. simpl. apply mod_eqm. Qed.

Lemma value_Const w z : value q w (Const z) == z.
Proof. simpl. apply mod_eqm. Qed.

Lemma eqm_value w v x : value q w v == x <-> value q w v = x mod q.
Proof. unfold eqm. now rewrite value_canonical. Qed.

(** *** Rules for [returns] *)

Lemma returns_ret {A} (a : A) b (P : A -> builder -> list sparseR1C -> Prop) :
  P a b [] -> returns (ret a) b P.
Proof.
  intros H. exists a, b, []. repeat split; auto.
  unfold emits. now rewrite app_nil_r.
Qed.

Lemma returns_bind {A B} (m : M A) (k : A -> M B) b
    (P : B -> builder -> list sparseR1C -> Prop) :
  returns m b (fun a b1 gs1 =>
    returns (k a) b1 (fun r b2 gs2 => P r b2 (gs1 ++ gs2))) ->
  returns (bind m k) b P.
Proof.
  intros (a & b1 & gs1 & E1 & X1 & r & b2 & gs2 & E2 & X2 & H).
  exists r, b2, (gs1 ++ gs2). split; [|split; [|exact H]].
  - unfold bind. rewrite E1. exact E2.
  - unfold emits in *. rewrite X2, X1. now rewrite app_assoc.
Qed.

Lemma returns_conseq {A} (m : M A) b
    (P P' : A -> builder -> list sparseR1C -> Prop) :
  returns m b P -> (forall a b' gs, P a b' gs -> P' a b' gs) ->
  returns m b P'.
Proof.
  intros (a & b' & gs & E & X & H) HP. exists a, b', gs. auto.
Qed.

Lemma returns_new b (P : Term -> builder -> list sparseR1C -> Prop) :
  P (mkTerm (nbVariables b) (tOne q))
    (mkBuilder (constraints b) (S (nbVariables b)) (hints b)
               (commitments b) (mtBooleans b)) [] ->
  returns (newInternalVariable q) b P.
Proof.
  intros H. eexists _, _, []. split; [reflexivity|]. split; [|exact H].
  unfold emits. simpl. now rewrite app_nil_r.
Qed.

Lemma returns_gate g b (P : unit -> builder -> list sparseR1C -> Prop) :
  P tt (mkBuilder (constraints b ++ [g]) (nbVariables b) (hints b)
                  (commitments b) (mtBooleans b)) [g] ->
  returns (addPlonkConstraint g) b P.
Proof.
  intros H. eexists _, _, [g]. split; [reflexivity|]. split; [|exact H].
  reflexivity.
Qed.

Lemma returns_mark v b (P : unit -> builder -> list sparseR1C -> Prop) :
  (forall b', constraints b' = constraints b -> P tt b' []) ->
  returns (MarkBoolean v) b P.
Proof.
  intros H. destruct v as [z|t]; eexists _, _, [];
    (split; [reflexivity|]); (split; [|apply H; reflexivity]);
    unfold emits; simpl; now rewrite app_nil_r.
Qed.

Lemma mulGates_app gs1 gs2 : mulGates (gs1 ++ gs2) = mulGates gs1 ++ mulGates gs2.
Proof. apply filter_app. Qed.

Lemma eqm_of_eq a b : a = b -> a == b.
Proof. intros ->. reflexivity. Qed.

(** [L == R] follows from a gate equation [E == 0] and an integer identity
    [L = R + c * E]. *)
Lemma eqm_lin L R E c : E == 0 -> L = R + c * E -> L == R.
Proof.
  intros HE ->. rewrite HE. apply eqm_of_eq. ring.
Qed.

(** *** Sums *)

Lemma splitSum_spec (r : list Term) : forall acc k b,
  returns (splitSum q acc r k) b (fun t _ gs =>
    mulGates gs = [] /\
    forall w, Forall (gate_holds q w) gs ->
      termValue w t == termValue w acc + sumTerms w r + constOf k).
Proof.
  induction r as [|t r IH]; intros acc k b.
  - destruct k as [c|]; cbn [splitSum].
    + apply returns_bind, returns_new, returns_bind, returns_gate, returns_ret.
      split; [reflexivity|]. intros w Hw.
      apply Forall_inv in Hw. unfold gate_holds in Hw. cbn in Hw.
      apply eqm_0_iff in Hw. rewrite tMinusOne_eqm in Hw.
      unfold termValue. cbn. rewrite tOne_eq.
      apply (eqm_lin _ _ _ (-1) Hw). ring.
    + apply returns_ret. split; [reflexivity|]. intros w _.
      apply eqm_of_eq. cbn. ring.
  - cbn [splitSum].
    apply returns_bind, returns_new, returns_bind, returns_gate.
    eapply returns_conseq; [apply IH|].
    cbn beta. intros o b' gs [Hm Hs]. split.
    + cbn. exact Hm.
    + intros w Hw. inversion Hw as [|g gs' Hg Hgs]; subst.
      rewrite (Hs w Hgs). unfold gate_holds in Hg. cbn in Hg.
      apply eqm_0_iff in Hg. rewrite tMinusOne_eqm in Hg.
      unfold termValue at 1. cbn [VID Coeff sumTerms].
      rewrite tOne_eq.
      apply (eqm_lin _ _ _ (-1) Hg). unfold termValue. ring.
Qed.

Lemma sumTerms_app w l1 l2 :
  sumTerms w (l1 ++ l2) = sumTerms w l1 + sumTerms w l2.
Proof.
  induction l1 as [|t l1 IH]; cbn [app sumTerms] in *.
  - ring.
  - rewrite IH. ring.
Qed.

Lemma mergeTerm_sum w t acc :
  sumTerms w (mergeTerm q t acc) == sumTerms w acc + termValue w t.
Proof.
  induction acc as [|u acc IH]; cbn [mergeTerm].
  - apply eqm_of_eq. cbn. ring.
  - destruct (Nat.eqb (VID u) (VID t)) eqn:E.
    + apply Nat.eqb_eq in E.
      cbn [sumTerms].
      unfold termValue; cbn [VID Coeff]. unfold fAdd.
      rewrite mod_eqm, E. apply eqm_of_eq. ring.
    + cbn [sumTerms]. rewrite IH.
      apply eqm_of_eq. ring.
Qed.

Lemma mergeTerm_nonempty t acc : mergeTerm q t acc <> [].
Proof.
  destruct acc as [|u acc]; cbn [mergeTerm]; [discriminate|].
  destruct (Nat.eqb (VID u) (VID t)); discriminate.
Qed.

Lemma reduce_fold_sum w (l : list Term) : forall acc,
  sumTerms w (fold_left (fun a t => mergeTerm q t a) l acc)
  == sumTerms w acc + sumTerms w l.
Proof.
  induction l as [|t l IH]; intros acc; cbn [fold_left].
  - apply eqm_of_eq. cbn. ring.
  - rewrite IH, mergeTerm_sum. apply eqm_of_eq.
    cbn [sumTerms]. ring.
Qed.

Lemma reduce_sum w l : sumTerms w (reduce q l) == sumTerms w l.
Proof.
  unfold reduce. rewrite reduce_fold_sum. apply eqm_of_eq. cbn. ring.
Qed.

Lemma reduce_fold_nonempty (l : list Term) : forall acc,
  acc <> [] -> fold_left (fun a t => mergeTerm q t a) l acc <> [].
Proof.
  induction l as [|t l IH]; intros acc Hacc; cbn [fold_left]; auto.
  apply IH, mergeTerm_nonempty.
Qed.

Lemma reduce_nonempty l : l <> [] -> reduce q l <> [].
Proof.
  destruct l as [|t l]; [congruence|]. intros _. unfold reduce.
  cbn [fold_left]. apply reduce_fold_nonempty, mergeTerm_nonempty.
Qed.

Lemma filterConstantSum_aux_sum w (l : list FVariable) : forall res k,
  sumTerms w (fst (filterConstantSum_aux q l res k))
    + snd (filterConstantSum_aux q l res k)
  == sumTerms w res + k + sumValues q w l.
Proof.
  induction l as [|[z|t] l IH]; intros res k;
    cbn [filterConstantSum_aux sumValues fst snd].
  - apply eqm_of_eq. ring.
  - rewrite IH. unfold fAdd, FromInterface.
    rewrite value_Const, !mod_eqm. apply eqm_of_eq. ring.
  - rewrite IH, sumTerms_app, value_Wire.
    apply eqm_of_eq. cbn. ring.
Qed.

(** [Add] never panics, emits only gates without multiplication term, and
    its result is the sum of its operands under every assignment that
    satisfies those gates. *)
Lemma Add_spec i1 i2 ins b :
  returns (Add q i1 i2 ins) b (fun r _ gs =>
    mulGates gs = [] /\
    forall w, Forall (gate_holds q w) gs ->
      value q w r == sumValues q w (i1 :: i2 :: ins)).
Proof.
  unfold Add.
  pose proof (fun w => filterConstantSum_aux_sum w (i1 :: i2 :: ins) []
                         (0 mod q)) as Hsum.
  fold (filterConstantSum q (i1 :: i2 :: ins)) in Hsum.
  destruct (filterConstantSum q (i1 :: i2 :: ins)) as [vars k].
  cbn [fst snd] in Hsum.
  assert (Hsum' : forall w,
             sumTerms w vars + k == sumValues q w (i1 :: i2 :: ins)).
  { intros w. rewrite Hsum, mod_eqm. apply eqm_of_eq. unfold ToBigInt. cbn [sumTerms sumValues]. ring. }
  clear Hsum.
  destruct vars as [|v vars].
  - apply returns_ret. split; [reflexivity|]. intros w _.
    rewrite value_Const, <- Hsum'. apply eqm_of_eq. unfold ToBigInt. cbn [sumTerms sumValues]. ring.
  - pose proof (reduce_nonempty (v :: vars) ltac:(discriminate)) as Hne.
    pose proof (fun w => reduce_sum w (v :: vars)) as Hred.
    destruct (reduce q (v :: vars)) as [|v0 rest]; [congruence|].
    destruct (fIsZero q k) eqn:Ek.
    + apply returns_bind.
      eapply returns_conseq; [apply splitSum_spec|].
      cbn beta. intros t b' gs [Hm Hs]. apply returns_ret.
      rewrite app_nil_r. split; [exact Hm|]. intros w Hw.
      rewrite value_Wire, (Hs w Hw). cbn [constOf].
      apply fIsZero_true, eqm_0_iff in Ek.
      transitivity (sumTerms w (v0 :: rest) + 0);
        [apply eqm_of_eq; cbn [sumTerms]; ring|].
      rewrite Hred, <- (Hsum' w), Ek. reflexivity.
    + apply returns_bind.
      eapply returns_conseq; [apply splitSum_spec|].
      cbn beta. intros t b' gs [Hm Hs]. apply returns_ret.
      rewrite app_nil_r. split; [exact Hm|]. intros w Hw.
      rewrite value_Wire, (Hs w Hw). cbn [constOf].
      transitivity (sumTerms w (v0 :: rest) + k);
        [apply eqm_of_eq; cbn [sumTerms]; ring|].
      rewrite Hred, <- (Hsum' w). reflexivity.
Qed.

Lemma Neg_value w v : value q w (Neg q v) == - value q w v.
Proof.
  destruct v as [z|t]; cbn [Neg].
  - rewrite !value_Const. unfold ToBigInt, fNeg, FromInterface.
    now rewrite !mod_eqm.
  - rewrite !value_Wire. unfold termValue; cbn [VID Coeff]. unfold fNeg.
    rewrite mod_eqm. apply eqm_of_eq. ring.
Qed.

Lemma Sub_spec i1 i2 b :
  returns (Sub q i1 i2 []) b (fun r _ gs =>
    mulGates gs = [] /\
    forall w, Forall (gate_holds q w) gs ->
      value q w r == value q w i1 - value q w i2).
Proof.
  unfold Sub. cbn [neg map].
  eapply returns_conseq; [apply Add_spec|].
  cbn beta. intros r b' gs [Hm Hs]. split; [exact Hm|]. intros w Hw.
  rewrite (Hs w Hw). cbn [sumValues]. rewrite Neg_value.
  apply eqm_of_eq. ring.
Qed.

(** *** Products *)

Lemma splitProd_spec (r : list Term) : forall acc b,
  returns (splitProd q acc r) b (fun t _ gs =>
    List.length gs = List.length r /\
    forall w, Forall (gate_holds q w) gs ->
      termValue w t == termValue w acc * prodTerms w r).
Proof.
  induction r as [|t r IH]; intros acc b; cbn [splitProd].
  - apply returns_ret. split; [reflexivity|]. intros w _.
    apply eqm_of_eq. cbn [prodTerms]. ring.
  - apply returns_bind, returns_new, returns_bind, returns_gate.
    eapply returns_conseq; [apply IH|].
    cbn beta. intros o b' gs [Hl Hs]. split.
    + cbn [app List.length]. now rewrite Hl.
    + intros w Hw. inversion Hw as [|g gs' Hg Hgs]; subst.
      rewrite (Hs w Hgs). unfold gate_holds in Hg. cbn in Hg.
      apply eqm_0_iff in Hg. rewrite tMinusOne_eqm in Hg.
      unfold fMul in Hg. rewrite mod_eqm in Hg.
      unfold termValue at 1. cbn [VID Coeff prodTerms].
      rewrite tOne_eq.
      assert (Ho : w (nbVariables b) == termValue w acc * termValue w t).
      { apply (eqm_lin _ _ _ (-1) Hg). unfold termValue. ring. }
      rewrite Ho. apply eqm_of_eq. ring.
Qed.

Lemma prodTerms_app w l1 l2 :
  prodTerms w (l1 ++ l2) = prodTerms w l1 * prodTerms w l2.
Proof.
  induction l1 as [|t l1 IH]; cbn [app prodTerms].
  - ring.
  - rewrite IH. ring.
Qed.

Lemma filterConstantProd_aux_prod w (l : list FVariable) : forall res k,
  snd (filterConstantProd_aux q l res k)
    * prodTerms w (fst (filterConstantProd_aux q l res k))
  == k * prodTerms w res * prodValues q w l.
Proof.
  induction l as [|[z|t] l IH]; intros res k;
    cbn [filterConstantProd_aux prodValues].
  - cbn [fst snd]. apply eqm_of_eq. ring.
  - destruct (fIsZero q (fMul q k (FromInterface q z))) eqn:E.
    + cbn [fst snd]. apply fIsZero_true, eqm_0_iff in E.
      unfold fMul, FromInterface in E. rewrite !mod_eqm in E.
      rewrite value_Const.
      transitivity (k * z * (prodTerms w res * prodValues q w l));
        [rewrite E|]; apply eqm_of_eq; ring.
    + rewrite IH. unfold fMul, FromInterface. rewrite value_Const, !mod_eqm.
      apply eqm_of_eq. ring.
  - rewrite IH, prodTerms_app, value_Wire. apply eqm_of_eq.
    cbn [prodTerms]. ring.
Qed.

Lemma filterConstantProd_aux_length (l : list FVariable) : forall res k,
  (List.length (fst (filterConstantProd_aux q l res k))
   <= List.length res + List.length l)%nat.
Proof.
  induction l as [|[z|t] l IH]; intros res k;
    cbn [filterConstantProd_aux List.length].
  - cbn [fst]. lia.
  - destruct (fIsZero q (fMul q k (FromInterface q z))).
    + cbn [fst]. lia.
    + specialize (IH res (fMul q k (FromInterface q z))). lia.
  - specialize (IH (res ++ [t]) k). rewrite length_app in IH.
    cbn [List.length] in IH. lia.
Qed.

Lemma prodTerms_zero w (l : list Term) :
  existsb (fun t => fIsZero q (Coeff t)) l = true -> prodTerms w l == 0.
Proof.
  induction l as [|t l IH]; cbn [existsb prodTerms]; [discriminate|].
  intros H. apply orb_true_iff in H. destruct H as [H|H].
  - apply fIsZero_true, eqm_0_iff in H. unfold termValue. rewrite H.
    apply eqm_of_eq. ring.
  - rewrite (IH H). apply eqm_of_eq. ring.
Qed.

(** [Mul] never panics, emits at most one gate per operand after the
    first, and its result is the product of its operands under every
    assignment that satisfies those gates. *)
Lemma Mul_spec i1 i2 ins b :
  returns (Mul q i1 i2 ins) b (fun r _ gs =>
    (List.length gs <= S (List.length ins))%nat /\
    (isConst r = true -> gs = []) /\
    forall w, Forall (gate_holds q w) gs ->
      value q w r == prodValues q w (i1 :: i2 :: ins)).
Proof.
  unfold Mul.
  pose proof (fun w => filterConstantProd_aux_prod w (i1 :: i2 :: ins) []
                         (tOne q)) as Hprod.
  pose proof (filterConstantProd_aux_length (i1 :: i2 :: ins) [] (tOne q))
    as Hlen.
  fold (filterConstantProd q (i1 :: i2 :: ins)) in Hprod, Hlen.
  destruct (filterConstantProd q (i1 :: i2 :: ins)) as [vars k].
  cbn [fst snd List.length] in Hprod, Hlen.
  assert (Hprod' : forall w,
             k * prodTerms w vars == prodValues q w (i1 :: i2 :: ins)).
  { intros w. rewrite Hprod, tOne_eq. apply eqm_of_eq.
    cbn [prodTerms]. ring. }
  clear Hprod.
  destruct vars as [|v0 rest].
  - apply returns_ret. split; [cbn; lia|]. split; [reflexivity|]. intros w _.
    rewrite value_Const, <- Hprod'. apply eqm_of_eq.
    unfold ToBigInt. cbn [prodTerms]. ring.
  - destruct (fIsZero q k) eqn:Ek.
    { apply returns_ret. split; [cbn; lia|]. split; [reflexivity|]. intros w _.
      apply fIsZero_true, eqm_0_iff in Ek.
      rewrite value_Const, <- Hprod', Ek. apply eqm_of_eq. ring. }
    destruct (existsb (fun t => fIsZero q (Coeff t)) (v0 :: rest)) eqn:Ez.
    { apply returns_ret. split; [cbn; lia|]. split; [reflexivity|]. intros w _.
      rewrite value_Const, <- Hprod', (prodTerms_zero w _ Ez).
      apply eqm_of_eq. ring. }
    apply returns_bind.
    eapply returns_conseq; [apply splitProd_spec|].
    cbn beta. intros t b' gs [Hl Hs]. apply returns_ret.
    rewrite app_nil_r. split; [|split; [discriminate|]].
    + rewrite Hl. cbn [List.length] in Hlen. lia.
    + intros w Hw. rewrite value_Wire, (Hs w Hw), <- Hprod'.
      unfold mulConstant, termValue at 1. cbn [VID Coeff prodTerms].
      unfold fMul. rewrite mod_eqm. apply eqm_of_eq.
      unfold termValue. ring.
Qed.

(** *** Boolean assertions, [IsZero], [Select], [And] *)

Lemma fIsOne_true z : fIsOne q z = true <-> z mod q = 1.
Proof. unfold fIsOne. rewrite tOne_eq. apply Z.eqb_eq. Qed.

Lemma boolish_test z :
  boolish q (Const z) <-> fIsZero q z || fIsOne q z = true.
Proof.
  cbn [boolish]. rewrite orb_true_iff, fIsZero_true, fIsOne_true. tauto.
Qed.

Lemma AssertIsBoolean_spec v b :
  boolish q v ->
  returns (AssertIsBoolean q v) b (fun _ _ gs => (List.length gs <= 1)%nat).
Proof.
  intros Hv. destruct v as [z|t]; cbn [AssertIsBoolean].
  - apply boolish_test in Hv. rewrite Hv. apply returns_ret. cbn; lia.
  - destruct (existsb (term_eqb t) (mtBooleans b)) eqn:E.
    + exists tt, b, []. split; [|split; [|cbn; lia]].
      * unfold bind, IsBoolean. rewrite E. reflexivity.
      * unfold emits. now rewrite app_nil_r.
    + eexists tt, _, [_]. split; [|split; [|cbn; lia]].
      * unfold bind, IsBoolean, MarkBoolean, addPlonkConstraint.
        rewrite E. reflexivity.
      * reflexivity.
Qed.

Lemma value_eq_1 w v : value q w v = 1 <-> value q w v == 1.
Proof.
  rewrite eqm_value. rewrite (Z.mod_small 1); [tauto|].
  pose proof q_gt_1; lia.
Qed.

Lemma value_eq_0 w v : value q w v = 0 <-> value q w v == 0.
Proof. rewrite eqm_value. now rewrite Zmod_0_l. Qed.

(** Soundness of the two gates of [IsZero]. *)
Lemma isZero_gates_sound w a x m :
  gate_holds q w (isZeroGate1 q a x m) ->
  gate_holds q w (isZeroGate2 a m) ->
  (termValue w a == 0 -> w m == 1) /\ (~ termValue w a == 0 -> w m == 0).
Proof.
  unfold gate_holds, isZeroGate1, isZeroGate2. cbn.
  intros G1 G2. apply eqm_0_iff in G1, G2.
  rewrite tOne_eq, tMinusOne_eqm in G1. split.
  - intros Ha.
    assert (E : Coeff a * (w (VID a) * w x) == 0).
    { transitivity (termValue w a * w x);
        [apply eqm_of_eq; unfold termValue; ring|].
      rewrite Ha. apply eqm_of_eq. ring. }
    transitivity (w m + Coeff a * (w (VID a) * w x));
      [rewrite E; apply eqm_of_eq; ring|].
    apply (eqm_lin _ _ _ 1 G1). ring.
  - intros Ha.
    assert (E : termValue w a * w m == 0).
    { rewrite <- G2. apply eqm_of_eq. unfold termValue. ring. }
    apply eqm_mul_0 in E. tauto.
Qed.


Lemma IsZero_Wire_run a b :
  IsZero q (Wire a) b =
  Returned (Wire (mkTerm (nbVariables b) (tOne q)))
    (mkBuilder
       (constraints b ++
        [isZeroGate1 q a (S (nbVariables b)) (nbVariables b);
         isZeroGate2 a (nbVariables b)])
       (S (S (nbVariables b)))
       (hints b ++ [mkHint InvZeroHint [Wire a] [S (nbVariables b)]])
       (commitments b)
       (mkTerm (nbVariables b) (tOne q) :: mtBooleans b)).
Proof.
  unfold IsZero, bind, newInternalVariable, NewHint.
  change (1 <=? 0) with false. change (Z.to_nat 1) with 1%nat.
  cbv beta iota zeta.
  cbn [seq map constraints nbVariables hints commitments mtBooleans].
  unfold index, asTerm, ret, addPlonkConstraint, MarkBoolean.
  cbn [nth_error constraints nbVariables hints commitments mtBooleans
       VID Coeff].
  unfold isZeroGate1, isZeroGate2. rewrite <- app_assoc. cbn [app].
  replace (S (nbVariables b) + 1)%nat with (S (S (nbVariables b))) by lia.
  reflexivity.
Qed.


Lemma Forall_app_l {A} (P : A -> Prop) l1 l2 :
  Forall P (l1 ++ l2) -> Forall P l1.
Proof. intros H. now apply Forall_app in H. Qed.

Lemma Forall_app_r {A} (P : A -> Prop) l1 l2 :
  Forall P (l1 ++ l2) -> Forall P l2.
Proof. intros H. now apply Forall_app in H. Qed.

Lemma mulGates_length gs : (List.length (mulGates gs) <= List.length gs)%nat.
Proof. apply filter_length_le. Qed.



Lemma boolish_value w v :
  boolish q v -> isConst v = true -> value q w v = 0 \/ value q w v = 1.
Proof. destruct v; [intros H _; exact H|discriminate]. Qed.

Lemma And_spec a c b :
  boolish q a -> boolish q c ->
  returns (And q a c) b (fun r _ gs =>
    boolish q r /\
    forall w, Forall (gate_holds q w) gs ->
      value q w r == value q w a * value q w c).
Proof.
  intros Ha Hc. unfold And.
  apply returns_bind.
  eapply returns_conseq; [apply AssertIsBoolean_spec; exact Ha|].
  cbn beta. intros [] b1 g1 _.
  apply returns_bind.
  eapply returns_conseq; [apply AssertIsBoolean_spec; exact Hc|].
  cbn beta. intros [] b2 g2 _.
  apply returns_bind.
  eapply returns_conseq; [apply Mul_spec|].
  cbn beta. intros r b3 gm (_ & Hconst & Hm).
  apply returns_bind, returns_mark. intros b4 _. apply returns_ret.
  assert (Hsem : forall w, Forall (gate_holds q w) gm ->
                   value q w r == value q w a * value q w c).
  { intros w Hw. rewrite (Hm w Hw). cbn [prodValues].
    apply eqm_of_eq. ring. }
  split.
  - destruct r as [z|t]; [|exact I].
    specialize (Hconst eq_refl). subst gm.
    pose proof (Hsem (fun _ => 0) (Forall_nil _)) as Hz.
    apply eqm_value in Hz. cbn [boolish]. cbn [value] in Hz. rewrite Hz.
    assert (Hva : value q (fun _ => 0) a = 0 \/ value q (fun _ => 0) a = 1).
    { destruct a as [za|ta]; [exact Ha|left].
      cbn [value]. rewrite Z.mul_0_r. apply Zmod_0_l. }
    assert (Hvc : value q (fun _ => 0) c = 0 \/ value q (fun _ => 0) c = 1).
    { destruct c as [zc|tc]; [exact Hc|left].
      cbn [value]. rewrite Z.mul_0_r. apply Zmod_0_l. }
    pose proof q_gt_1.
    destruct Hva as [-> | ->], Hvc as [-> | ->]; cbn;
      rewrite ?Zmod_0_l; auto; right; apply Z.mod_small; lia.
  - intros w Hw. apply Hsem.
    rewrite !app_nil_r in Hw.
    exact (Forall_app_r _ _ _ (Forall_app_r _ _ _ Hw)).
Qed.

(** *** The scan of [Cmp] *)











(** ** [IsZero], [Div], [MulAcc] and [Select] *)








Lemma mulAccGate_sound w a b c res :
  VID a = VID c \/ VID a = VID b ->
  gate_holds q w (mulAccGate q a b c res) ->
  w res == termValue w a + termValue w b * termValue w c.
Proof.
  intros Hv G. unfold gate_holds, mulAccGate in G.
  cbn [xa xb xc qL qR qO qM qC] in G.
  apply eqm_0_iff in G. unfold fMul in G.
  rewrite tMinusOne_eqm, mod_eqm in G. unfold termValue.
  destruct (Nat.eqb (VID a) (VID b)) eqn:E.
  - apply Nat.eqb_eq in E. rewrite <- E.
    apply (eqm_lin _ _ _ (-1) G). ring.
  - apply Nat.eqb_neq in E. destruct Hv as [Hv|Hv]; [|congruence].
    rewrite <- Hv. apply (eqm_lin _ _ _ (-1) G). ring.
Qed.

Lemma MulAcc_fast_run a b c bld :
  VID a = VID c \/ VID a = VID b ->
  MulAcc q (Wire a) (Wire b) (Wire c) bld =
  Returned (Wire (mkTerm (nbVariables bld) (tOne q)))
           (withGates bld [mulAccGate q a b c (nbVariables bld)]).
Proof.
  intros Hv. unfold MulAcc, mulAccFastTrack, mulAccGate.
  destruct (Nat.eqb (VID a) (VID b)) eqn:E.
  - rewrite E. cbn [negb]. unfold fMul. rewrite (Z.mul_comm (Coeff c)).
    reflexivity.
  - assert (E' : Nat.eqb (VID a) (VID c) = true).
    { apply Nat.eqb_eq. apply Nat.eqb_neq in E.
      destruct Hv; [assumption|congruence]. }
    rewrite E'. reflexivity.
Qed.

(** C6: when [a] shares its wire with [c] (or with [b]), [MulAcc] takes the
    fast path: one gate with [qL] the coefficient of [a], [qM] the product
    of the coefficients of [b] and [c] and [qO = -1]; the general
    construction [Add(a, Mul(b, c))] returns too, and under assignments
    that satisfy the respective gates and agree on the three input wires
    both results have the same value, [a + b*c]. *)
Theorem MulAcc_fast_path (a b c : Term) (bld : builder) :
  VID a = VID c \/ VID a = VID b ->
  let res := mkTerm (nbVariables bld) (tOne q) in
  let g := mulAccGate q a b c (nbVariables bld) in
  MulAcc q (Wire a) (Wire b) (Wire c) bld
    = Returned (Wire res) (withGates bld [g]) /\
  qL g = Coeff a /\ qM g = fMul q (Coeff b) (Coeff c) /\
  qO g = tMinusOne q /\
  (forall w, gate_holds q w g ->
     value q w (Wire res)
     = (value q w (Wire a) + value q w (Wire b) * value q w (Wire c)) mod q)
  /\
  returns (p <- Mul q (Wire b) (Wire c) [] ;; Add q (Wire a) p []) bld
    (fun r2 _ gs2 =>
       forall w w', gate_holds q w g -> Forall (gate_holds q w') gs2 ->
         w (VID a) = w' (VID a) -> w (VID b) = w' (VID b) ->
         w (VID c) = w' (VID c) ->
         value q w (Wire res) = value q w' r2).
Proof.
  intros Hv res g.
  assert (Hfast : forall w, gate_holds q w g ->
            value q w (Wire res)
            == value q w (Wire a) + value q w (Wire b) * value q w (Wire c)).
  { intros w G. rewrite !value_Wire. unfold termValue at 1.
    cbn [VID Coeff res]. rewrite tOne_eq.
    rewrite <- (mulAccGate_sound w a b c _ Hv G). apply eqm_of_eq. ring. }
  split; [now apply MulAcc_fast_run|].
  repeat (split; [reflexivity|]).
  split; [intros w G; apply eqm_value, Hfast, G|].
  apply returns_bind.
  eapply returns_conseq; [apply Mul_spec|].
  cbn beta. intros p b1 gm (_ & _ & Hm).
  eapply returns_conseq; [apply Add_spec|].
  cbn beta. intros r2 b2 ga (_ & Ha) w w' G Hw' Ea Eb Ec.
  pose proof (Hm w' (Forall_app_l _ _ _ Hw')) as Vp.
  pose proof (Ha w' (Forall_app_r _ _ _ Hw')) as Vr.
  cbn [sumValues prodValues] in Vp, Vr.
  apply eqm_value in Vr. rewrite Vr. apply eqm_value.
  rewrite (Hfast w G), Vp, !value_Wire. unfold termValue.
  rewrite Ea, Eb, Ec. apply eqm_of_eq. ring.
Qed.


(** ** [Cmp] *)




(** ** Boolean operations on constants *)


Lemma AssertIsBoolean_Const_run z b :
  fIsZero q z || fIsOne q z = true ->
  AssertIsBoolean q (Const z) b = Returned tt b.
Proof. intros H. cbn [AssertIsBoolean]. now rewrite H. Qed.

Lemma fIsOne_FromInterface z : fIsOne q (FromInterface q z) = fIsOne q z.
Proof. unfold fIsOne, FromInterface. now rewrite Zmod_mod. Qed.









(** ** Inversion and division *)










(** ** Sums, differences and products of any operands *)

Lemma filterConstantSum_aux_wires (l : list FVariable) : forall res k,
  fst (filterConstantSum_aux q l res k) = res ++ wires l.
Proof.
  induction l as [|[z|t] l IH]; intros res k;
    cbn [filterConstantSum_aux wires fst].
  - now rewrite app_nil_r.
  - apply IH.
  - rewrite IH, <- app_assoc. reflexivity.
Qed.

Lemma filterConstantSum_aux_canon (l : list FVariable) : forall res k,
  k mod q = k ->
  snd (filterConstantSum_aux q l res k) mod q
  = snd (filterConstantSum_aux q l res k).
Proof.
  induction l as [|[z|t] l IH]; intros res k Hk;
    cbn [filterConstantSum_aux snd].
  - exact Hk.
  - apply IH. unfold fAdd. apply Zmod_mod.
  - now apply IH.
Qed.

Lemma filterConstantProd_aux_consts (l : list FVariable) : forall res k,
  wires l = [] -> fst (filterConstantProd_aux q l res k) = res.
Proof.
  induction l as [|[z|t] l IH]; intros res k Hw;
    cbn [filterConstantProd_aux wires] in *.
  - reflexivity.
  - destruct (fIsZero q (fMul q k (FromInterface q z))); [reflexivity|].
    now apply IH.
  - discriminate.
Qed.

Lemma filterConstantProd_aux_canon (l : list FVariable) : forall res k,
  k mod q = k ->
  snd (filterConstantProd_aux q l res k) mod q
  = snd (filterConstantProd_aux q l res k).
Proof.
  induction l as [|[z|t] l IH]; intros res k Hk;
    cbn [filterConstantProd_aux].
  - exact Hk.
  - destruct (fIsZero q (fMul q k (FromInterface q z))).
    + apply Zmod_0_l.
    + apply IH. unfold fMul. apply Zmod_mod.
  - now apply IH.
Qed.

Lemma sumValues_neg w (l : list FVariable) :
  sumValues q w (map (Neg q) l) == - sumValues q w l.
Proof.
  induction l as [|v l IH]; cbn [map sumValues].
  - reflexivity.
  - rewrite IH, Neg_value. apply eqm_of_eq. ring.
Qed.

(** [Add] of any operands returns, emitting only gates without
    multiplication term; under every assignment satisfying them its result
    is the field sum of the operands. When no operand is a term the sum is
    folded: the result is that constant and the builder is untouched. *)
Theorem Add_sound (i1 i2 : FVariable) (ins : list FVariable) (b : builder) :
  returns (Add q i1 i2 ins) b (fun r _ gs =>
    mulGates gs = [] /\
    forall w, Forall (gate_holds q w) gs ->
      value q w r = sumValues q w (i1 :: i2 :: ins) mod q) /\
  (wires (i1 :: i2 :: ins) = [] ->
   forall w, Add q i1 i2 ins b
     = Returned (Const (sumValues q w (i1 :: i2 :: ins) mod q)) b).
Proof.
  split.
  - eapply returns_conseq; [apply Add_spec|].
    cbn beta. intros r b' gs [Hm Hs]. split; [exact Hm|].
    intros w Hw. apply eqm_value, Hs, Hw.
  - intros Hw w. unfold Add.
    pose proof (filterConstantSum_aux_sum w (i1 :: i2 :: ins) [] (0 mod q))
      as Hsum.
    pose proof (filterConstantSum_aux_wires (i1 :: i2 :: ins) [] (0 mod q))
      as Hfst.
    pose proof (filterConstantSum_aux_canon (i1 :: i2 :: ins) [] (0 mod q)
                  (Zmod_mod 0 q)) as Hcan.
    fold (filterConstantSum q (i1 :: i2 :: ins)) in Hsum, Hfst, Hcan.
    destruct (filterConstantSum q (i1 :: i2 :: ins)) as [vars k].
    cbn [fst snd] in Hsum, Hfst, Hcan. rewrite Hw in Hfst.
    cbn [app] in Hfst. subst vars. unfold ret, ToBigInt.
    do 2 f_equal. rewrite <- Hcan.
    cbn [sumTerms] in Hsum. rewrite mod_eqm in Hsum.
    transitivity ((0 + k) mod q); [reflexivity|].
    rewrite Hsum. reflexivity.
Qed.

(** [Sub] of any operands returns, emitting only gates without
    multiplication term, and its result is the first operand minus all
    the others. *)
Theorem Sub_sound (i1 i2 : FVariable) (ins : list FVariable) (b : builder) :
  returns (Sub q i1 i2 ins) b (fun r _ gs =>
    mulGates gs = [] /\
    forall w, Forall (gate_holds q w) gs ->
      value q w r
      = (value q w i1 - value q w i2 - sumValues q w ins) mod q).
Proof.
  unfold Sub. cbn [neg map].
  eapply returns_conseq; [apply Add_spec|].
  cbn beta. intros r b' gs [Hm Hs]. split; [exact Hm|]. intros w Hw.
  apply eqm_value. rewrite (Hs w Hw). cbn [sumValues].
  rewrite Neg_value. fold (neg q ins). unfold neg.
  rewrite sumValues_neg. apply eqm_of_eq. ring.
Qed.


(** [Mul] of any operands returns, emitting at most one gate per operand
    after the first; under every assignment satisfying them its result is
    the field product of the operands. When no operand is a term the
    product is folded: the result is that constant and the builder is
    untouched. *)
Theorem Mul_sound (i1 i2 : FVariable) (ins : list FVariable) (b : builder) :
  returns (Mul q i1 i2 ins) b (fun r _ gs =>
    (List.length gs <= S (List.length ins))%nat /\
    forall w, Forall (gate_holds q w) gs ->
      value q w r = prodValues q w (i1 :: i2 :: ins) mod q) /\
  (wires (i1 :: i2 :: ins) = [] ->
   forall w, Mul q i1 i2 ins b
     = Returned (Const (prodValues q w (i1 :: i2 :: ins) mod q)) b).
Proof.
  split.
  - eapply returns_conseq; [apply Mul_spec|].
    cbn beta. intros r b' gs (Hl & _ & Hs). split; [exact Hl|].
    intros w Hw. apply eqm_value, Hs, Hw.
  - intros Hw w. unfold Mul.
    pose proof (filterConstantProd_aux_prod w (i1 :: i2 :: ins) [] (tOne q))
      as Hprod.
    pose proof (filterConstantProd_aux_consts (i1 :: i2 :: ins) [] (tOne q)
                  Hw) as Hfst.
    pose proof (filterConstantProd_aux_canon (i1 :: i2 :: ins) [] (tOne q)
                  (Zmod_mod 1 q)) as Hcan.
    fold (filterConstantProd q (i1 :: i2 :: ins)) in Hprod, Hfst, Hcan.
    destruct (filterConstantProd q (i1 :: i2 :: ins)) as [vars k].
    cbn [fst snd] in Hprod, Hfst, Hcan. subst vars. unfold ret, ToBigInt.
    do 2 f_equal. rewrite <- Hcan.
    cbn [prodTerms] in Hprod. rewrite tOne_eq in Hprod.
    transitivity ((k * 1) mod q); [f_equal; ring|].
    rewrite Hprod. f_equal. ring.
Qed.

(** Without three terms of which the first shares its wire with one of
    the others, the fast track of [MulAcc] declines and leaves the builder
    as it is. *)
Lemma mulAccFastTrack_declines a b c bld :
  (forall ta tb tc, a = Wire ta -> b = Wire tb -> c = Wire tc ->
     VID ta <> VID tb /\ VID ta <> VID tc) ->
  mulAccFastTrack q a b c bld = Returned None bld.
Proof.
  intros H. destruct a as [za|ta], b as [zb|tb], c as [zc|tc];
    try reflexivity.
  destruct (H ta tb tc eq_refl eq_refl eq_refl) as [Hb Hc].
  apply Nat.eqb_neq in Hb, Hc. unfold mulAccFastTrack.
  rewrite Hb, Hc. reflexivity.
Qed.

(** [MulAcc] of any operands returns, and under every assignment
    satisfying what it emitted its result is [a + b*c], on the fast track
    and off it. *)
Theorem MulAcc_sound (a b c : FVariable) (bld : builder) :
  returns (MulAcc q a b c) bld (fun r _ gs =>
    forall w, Forall (gate_holds q w) gs ->
      value q w r = (value q w a + value q w b * value q w c) mod q).
Proof.
  assert (Hgen : mulAccFastTrack q a b c bld = Returned None bld ->
    returns (MulAcc q a b c) bld (fun r _ gs =>
      forall w, Forall (gate_holds q w) gs ->
        value q w r = (value q w a + value q w b * value q w c) mod q)).
  { intros E. unfold MulAcc.
    assert (E' : forall k : option FVariable -> M FVariable,
               bind (mulAccFastTrack q a b c) k bld = k None bld)
      by (intros k; unfold bind; now rewrite E).
    unfold returns. rewrite E'. fold (returns (p <- Mul q b c [] ;; Add q a p []) bld
      (fun r _ gs => forall w, Forall (gate_holds q w) gs ->
        value q w r = (value q w a + value q w b * value q w c) mod q)).
    apply returns_bind.
    eapply returns_conseq; [apply Mul_spec|].
    cbn beta. intros p b1 gm (_ & _ & Hm).
    eapply returns_conseq; [apply Add_spec|].
    cbn beta. intros r b2 ga [_ Ha] w Hw.
    apply eqm_value.
    rewrite (Ha w (Forall_app_r _ _ _ Hw)). cbn [sumValues].
    rewrite (Hm w (Forall_app_l _ _ _ Hw)). cbn [prodValues].
    apply eqm_of_eq. ring. }
  destruct a as [za|ta]; [apply Hgen; reflexivity|].
  destruct b as [zb|tb]; [apply Hgen; reflexivity|].
  destruct c as [zc|tc]; [apply Hgen; reflexivity|].
  destruct (Nat.eq_dec (VID ta) (VID tc)) as [Ec|Ec];
    [|destruct (Nat.eq_dec (VID ta) (VID tb)) as [Eb|Eb]].
  - eexists _, _, _. split; [apply MulAcc_fast_run; now left|].
    split; [reflexivity|]. intros w Hw. apply Forall_inv in Hw.
    apply eqm_value. rewrite !value_Wire.
    unfold termValue at 1. cbn [VID Coeff]. rewrite tOne_eq, Z.mul_1_l.
    apply mulAccGate_sound; [now left|exact Hw].
  - eexists _, _, _. split; [apply MulAcc_fast_run; now right|].
    split; [reflexivity|]. intros w Hw. apply Forall_inv in Hw.
    apply eqm_value. rewrite !value_Wire.
    unfold termValue at 1. cbn [VID Coeff]. rewrite tOne_eq, Z.mul_1_l.
    apply mulAccGate_sound; [now right|exact Hw].
  - apply Hgen, mulAccFastTrack_declines.
    intros ta' tb' tc' [= <-] [= <-] [= <-]. split; assumption.
Qed.



(** Round trip of addition and subtraction: [Sub(Add(a, c), c)] returns,
    emits only gates without multiplication term, and under every
    assignment satisfying them has the value of [a]. *)
Theorem Add_Sub_round_trip (a c : FVariable) (b : builder) :
  returns (s <- Add q a c [] ;; Sub q s c []) b (fun r _ gs =>
    mulGates gs = [] /\
    forall w, Forall (gate_holds q w) gs -> value q w r = value q w a).
Proof.
  apply returns_bind.
  eapply returns_conseq; [apply Add_spec|].
  cbn beta. intros s b1 g1 [M1 H1].
  eapply returns_conseq; [apply Sub_spec|].
  cbn beta. intros r b2 g2 [M2 H2]. split.
  - now rewrite mulGates_app, M1, M2.
  - intros w Hw. rewrite <- (value_canonical w a). apply eqm_value.
    rewrite (H2 w (Forall_app_r _ _ _ Hw)), (H1 w (Forall_app_l _ _ _ Hw)).
    cbn [sumValues]. apply eqm_of_eq. ring.
Qed.


(** [Select] on a constant condition that is neither 0 nor 1 panics and
    leaves the builder as it is. *)
Theorem Select_rejects_constant (z : Z) (i1 i2 : FVariable) (b : builder) :
  z mod q <> 0 -> z mod q <> 1 ->
  exists msg, Select q (Const z) i1 i2 b = Panicked msg b.
Proof.
  intros H0 H1. eexists. unfold Select, bind, IsBoolean.
  assert (E0 : fIsZero q z = false)
    by (apply not_true_is_false; now rewrite fIsZero_true).
  assert (E1 : fIsOne q z = false)
    by (apply not_true_is_false; now rewrite fIsOne_true).
  rewrite E0, E1. reflexivity.
Qed.

(** ** Boolean operations on any operands *)

Lemma fIsOne_false z : z mod q = 0 -> fIsOne q z = false.
Proof.
  intros Hz. apply not_true_is_false. rewrite fIsOne_true, Hz. lia.
Qed.

Lemma b2z_fIsOne z :
  boolish q (Const z) -> b2z (fIsOne q (FromInterface q z)) = z mod q.
Proof.
  intros [Hz|Hz]; rewrite fIsOne_FromInterface.
  - now rewrite (fIsOne_false z Hz), Hz.
  - now rewrite (proj2 (fIsOne_true z) Hz), Hz.
Qed.

Lemma small_0 : 0 mod q = 0.
Proof. apply Zmod_0_l. Qed.

Lemma small_1 : 1 mod q = 1.
Proof. pose proof q_gt_1. apply Z.mod_small. lia. Qed.

(** The three connectives on bits, as polynomials modulo [q]. *)
Lemma bits_connectives A C :
  (A = 0 \/ A = 1) -> (C = 0 \/ C = 1) ->
  (A + C - 2 * A * C) mod q = Z.lxor A C /\
  (A + C - A * C) mod q = Z.lor A C /\
  (A * C) mod q = Z.land A C.
Proof.
  pose proof small_0. pose proof small_1.
  intros [-> | ->] [-> | ->]; cbn; auto.
Qed.

Lemma term_eqb_eq t u : term_eqb t u = true -> t = u.
Proof.
  unfold term_eqb. intros H. apply andb_true_iff in H.
  destruct H as [H1 H2]. apply Nat.eqb_eq in H1. apply Z.eqb_eq in H2.
  destruct t, u. cbn [VID Coeff] in *. congruence.
Qed.

Lemma isBit_eqm w v :
  isBit q w v <-> (value q w v == 0 \/ value q w v == 1).
Proof. unfold isBit. now rewrite value_eq_0, value_eq_1. Qed.

(** A value that equals its square is a bit. *)
Lemma isBit_idempotent w v :
  value q w v - value q w v * value q w v == 0 -> isBit q w v.
Proof.
  intros H. apply isBit_eqm.
  assert (E : value q w v * (1 - value q w v) == 0)
    by (rewrite <- H; apply eqm_of_eq; ring).
  apply eqm_mul_0 in E. destruct E as [E|E]; [now left|right].
  apply (eqm_lin _ _ _ (-1) E). ring.
Qed.

Lemma returns_both {A} (m : M A) b
    (P Q : A -> builder -> list sparseR1C -> Prop) :
  returns m b P -> returns m b Q ->
  returns m b (fun a b' gs => P a b' gs /\ Q a b' gs).
Proof.
  intros (a & b' & gs & E & X & H) (a2 & b2 & gs2 & E2 & X2 & H2).
  rewrite E in E2. injection E2 as <- <-.
  unfold emits in *. rewrite X in X2. apply app_inv_head in X2. subst gs2.
  exists a, b', gs. auto.
Qed.

(** [AssertIsBoolean] keeps the marks sound and makes its operand a bit:
    either the operand was marked already, or the gate [v - v*v = 0] comes
    with the new mark. *)
Lemma AssertIsBoolean_marks v b :
  boolish q v ->
  returns (AssertIsBoolean q v) b (fun _ b1 ga =>
    (List.length ga <= 1)%nat /\
    forall w, Forall (gate_holds q w) ga -> marksSound q w b ->
      marksSound q w b1 /\ isBit q w v).
Proof.
  intros Hv. destruct v as [z|t]; cbn [AssertIsBoolean].
  - rewrite (proj1 (boolish_test z) Hv). apply returns_ret.
    split; [cbn; lia|]. intros w _ Hm. split; [exact Hm|exact Hv].
  - destruct (existsb (term_eqb t) (mtBooleans b)) eqn:E.
    + exists tt, b, []. split; [|split; [|split; [cbn; lia|]]].
      * unfold bind, IsBoolean. rewrite E. reflexivity.
      * unfold emits. now rewrite app_nil_r.
      * intros w _ Hm. split; [exact Hm|].
        apply existsb_exists in E. destruct E as (u & Hin & Heq).
        apply term_eqb_eq in Heq. subst u. exact (Hm t Hin).
    + eexists tt, _, [_]. split; [|split; [|split; [cbn; lia|]]].
      * unfold bind, IsBoolean, MarkBoolean, addPlonkConstraint.
        rewrite E. reflexivity.
      * reflexivity.
      * intros w Hw Hm. apply Forall_inv in Hw.
        assert (Hb : isBit q w (Wire t)).
        { apply isBit_idempotent. rewrite value_Wire.
          unfold gate_holds in Hw.
          cbn [xa xb xc qL qR qO qM qC] in Hw.
          apply eqm_0_iff in Hw. unfold fNeg, fMul in Hw.
          rewrite !mod_eqm in Hw.
          apply (eqm_lin _ _ _ 1 Hw). unfold termValue. ring. }
        split; [|exact Hb].
        intros u [<- | Hu]; [exact Hb|exact (Hm u Hu)].
Qed.

(** A fresh wire recorded as boolean keeps the marks sound when it is a
    bit. *)
Lemma marksSound_fresh w b1 cs n hs cm :
  marksSound q w b1 ->
  isBit q w (Wire (mkTerm (nbVariables b1) (tOne q))) ->
  marksSound q w
    (mkBuilder cs n hs cm
       (mkTerm (nbVariables b1) (tOne q) :: mtBooleans b1)).
Proof.
  intros Hm Hb u [<- | Hu]; [exact Hb|exact (Hm u Hu)].
Qed.

Lemma isBit_connectives w a c r :
  isBit q w a -> isBit q w c ->
  value q w r == value q w a + value q w c
                 - 2 * value q w a * value q w c \/
  value q w r == value q w a + value q w c - value q w a * value q w c \/
  value q w r == value q w a * value q w c ->
  isBit q w r.
Proof.
  intros Ba Bc H. unfold isBit in *.
  destruct (bits_connectives _ _ Ba Bc) as (Hx & Ho & Hn).
  assert (Hl : forall x y : Z, (x = 0 \/ x = 1) -> (y = 0 \/ y = 1) ->
             (Z.lxor x y = 0 \/ Z.lxor x y = 1) /\
             (Z.lor x y = 0 \/ Z.lor x y = 1) /\
             (Z.land x y = 0 \/ Z.land x y = 1))
    by (intros x y [-> | ->] [-> | ->]; cbn; auto).
  destruct (Hl _ _ Ba Bc) as (Lx & Lo & Ln).
  destruct H as [H|[H|H]]; apply eqm_value in H; rewrite H.
  - now rewrite Hx.
  - now rewrite Ho.
  - now rewrite Hn.
Qed.

Lemma Xor_spec a c b :
  boolish q a -> boolish q c ->
  returns (Xor q a c) b (fun r b' gs =>
    (List.length gs <= 3)%nat /\
    forall w, Forall (gate_holds q w) gs ->
      value q w r
      == value q w a + value q w c - 2 * value q w a * value q w c /\
      (marksSound q w b ->
       marksSound q w b' /\ isBit q w a /\ isBit q w c)).
Proof.
  intros Ha Hc. unfold Xor.
  apply returns_bind.
  eapply returns_conseq; [apply AssertIsBoolean_marks; exact Ha|].
  cbn beta. intros [] b1 g1 [L1 M1].
  apply returns_bind.
  eapply returns_conseq; [apply AssertIsBoolean_marks; exact Hc|].
  cbn beta. intros [] b2 g2 [L2 M2].
  assert (HM : forall w, Forall (gate_holds q w) (g1 ++ g2) ->
             marksSound q w b ->
             marksSound q w b2 /\ isBit q w a /\ isBit q w c).
  { intros w Hw Hm.
    destruct (M1 w (Forall_app_l _ _ _ Hw) Hm) as [Hm1 Ba].
    destruct (M2 w (Forall_app_r _ _ _ Hw) Hm1) as [Hm2 Bc]. auto. }
  assert (Hfin : forall (g : sparseR1C) cs n hs cm,
    (forall w, gate_holds q w g ->
       value q w (Wire (mkTerm (nbVariables b2) (tOne q)))
       == value q w a + value q w c - 2 * value q w a * value q w c) ->
    (List.length (g1 ++ g2 ++ [g]) <= 3)%nat /\
    forall w, Forall (gate_holds q w) (g1 ++ g2 ++ [g]) ->
      value q w (Wire (mkTerm (nbVariables b2) (tOne q)))
      == value q w a + value q w c - 2 * value q w a * value q w c /\
      (marksSound q w b ->
       marksSound q w
         (mkBuilder cs n hs cm
            (mkTerm (nbVariables b2) (tOne q) :: mtBooleans b2)) /\
       isBit q w a /\ isBit q w c)).
  { intros g cs n hs cm Hg. split; [rewrite !length_app; cbn; lia|].
    intros w Hw. rewrite app_assoc in Hw.
    pose proof (Hg w (Forall_inv (Forall_app_r _ _ _ Hw))) as Hv.
    split; [exact Hv|]. intros Hm.
    destruct (HM w (Forall_app_l _ _ _ Hw) Hm) as (Hm2 & Ba & Bc).
    split; [|auto]. apply marksSound_fresh; [exact Hm2|].
    apply (isBit_connectives w a c); auto. }
  destruct a as [za|ta], c as [zc|tc].
  - apply returns_ret. split; [rewrite !length_app; cbn; lia|].
    intros w Hw. rewrite app_nil_r in Hw. split; [|apply (HM w Hw)].
    rewrite (b2z_fIsOne za Ha), (b2z_fIsOne zc Hc).
    rewrite !value_Const.
    destruct (bits_connectives (za mod q) (zc mod q) Ha Hc) as (Hx & _ & _).
    rewrite <- Hx, !mod_eqm. reflexivity.
  - eexists _, _, [_]. split; [reflexivity|]. split; [reflexivity|].
    apply Hfin. intros w Hw. unfold gate_holds in Hw.
    cbn [xa xb xc qL qR qO qM qC VID Coeff] in Hw.
    apply eqm_0_iff in Hw. unfold fMul, fSub, FromInterface in Hw.
    rewrite tOne_eq, tMinusOne_eqm, !mod_eqm in Hw.
    rewrite value_Const, !value_Wire.
    unfold termValue. cbn [VID Coeff]. rewrite tOne_eq.
    apply (eqm_lin _ _ _ (-1) Hw). ring.
  - eexists _, _, [_]. split; [reflexivity|]. split; [reflexivity|].
    apply Hfin. intros w Hw. unfold gate_holds in Hw.
    cbn [xa xb xc qL qR qO qM qC VID Coeff] in Hw.
    apply eqm_0_iff in Hw. unfold fMul, fSub, FromInterface in Hw.
    rewrite tOne_eq, tMinusOne_eqm, !mod_eqm in Hw.
    rewrite value_Const, !value_Wire.
    unfold termValue. cbn [VID Coeff]. rewrite tOne_eq.
    apply (eqm_lin _ _ _ (-1) Hw). ring.
  - eexists _, _, [_]. split; [reflexivity|]. split; [reflexivity|].
    apply Hfin. intros w Hw. unfold gate_holds in Hw.
    cbn [xa xb xc qL qR qO qM qC VID Coeff] in Hw.
    apply eqm_0_iff in Hw. unfold fMul, fAdd, fNeg in Hw.
    rewrite tOne_eq, !mod_eqm in Hw.
    rewrite !value_Wire.
    unfold termValue. cbn [VID Coeff]. rewrite tOne_eq.
    apply (eqm_lin _ _ _ 1 Hw). ring.
Qed.

Lemma Or_spec a c b :
  boolish q a -> boolish q c ->
  returns (Or q a c) b (fun r b' gs =>
    (List.length gs <= 3)%nat /\
    forall w, Forall (gate_holds q w) gs ->
      value q w r
      == value q w a + value q w c - value q w a * value q w c /\
      (marksSound q w b ->
       marksSound q w b' /\ isBit q w a /\ isBit q w c)).
Proof.
  intros Ha Hc. unfold Or.
  apply returns_bind.
  eapply returns_conseq; [apply AssertIsBoolean_marks; exact Ha|].
  cbn beta. intros [] b1 g1 [L1 M1].
  apply returns_bind.
  eapply returns_conseq; [apply AssertIsBoolean_marks; exact Hc|].
  cbn beta. intros [] b2 g2 [L2 M2].
  assert (HM : forall w, Forall (gate_holds q w) (g1 ++ g2) ->
             marksSound q w b ->
             marksSound q w b2 /\ isBit q w a /\ isBit q w c).
  { intros w Hw Hm.
    destruct (M1 w (Forall_app_l _ _ _ Hw) Hm) as [Hm1 Ba].
    destruct (M2 w (Forall_app_r _ _ _ Hw) Hm1) as [Hm2 Bc]. auto. }
  assert (Hret : forall r : FVariable,
    (forall w, value q w r
               == value q w a + value q w c - value q w a * value q w c) ->
    returns (ret r) b2 (fun r b' gs2 =>
      (List.length (g1 ++ g2 ++ gs2) <= 3)%nat /\
      forall w, Forall (gate_holds q w) (g1 ++ g2 ++ gs2) ->
        value q w r
        == value q w a + value q w c - value q w a * value q w c /\
        (marksSound q w b ->
         marksSound q w b' /\ isBit q w a /\ isBit q w c))).
  { intros r Hr. apply returns_ret.
    split; [rewrite !length_app; cbn; lia|].
    intros w Hw. rewrite app_nil_r in Hw. split; [apply Hr|apply (HM w Hw)]. }
  destruct a as [za|ta], c as [zc|tc].
  - rewrite !fIsOne_FromInterface.
    destruct Ha as [Ha|Ha], Hc as [Hc|Hc];
      rewrite ?(fIsOne_false _ Ha), ?(fIsOne_false _ Hc),
              ?(proj2 (fIsOne_true _) Ha), ?(proj2 (fIsOne_true _) Hc);
      cbn [orb]; apply Hret; intros w;
      cbn [value]; rewrite Ha, Hc, ?small_0, ?small_1;
      apply eqm_of_eq; ring.
  - rewrite fIsOne_FromInterface.
    destruct Ha as [Ha|Ha];
      rewrite ?(fIsOne_false _ Ha), ?(proj2 (fIsOne_true _) Ha);
      apply Hret; intros w; rewrite !value_Const;
      rewrite <- (mod_eqm za), Ha; apply eqm_of_eq; ring.
  - rewrite fIsOne_FromInterface.
    destruct Hc as [Hc|Hc];
      rewrite ?(fIsOne_false _ Hc), ?(proj2 (fIsOne_true _) Hc);
      apply Hret; intros w; rewrite !value_Const;
      rewrite <- (mod_eqm zc), Hc; apply eqm_of_eq; ring.
  - eexists _, _, [_]. split; [reflexivity|]. split; [reflexivity|].
    assert (Hg : forall w,
      gate_holds q w
        (mkR1C (VID ta) (VID tc) (nbVariables b2)
               (fNeg q (Coeff ta)) (fNeg q (Coeff tc)) (tOne q)
               (fMul q (Coeff ta) (Coeff tc)) 0 NOT) ->
      value q w (Wire (mkTerm (nbVariables b2) (tOne q)))
      == value q w (Wire ta) + value q w (Wire tc)
         - value q w (Wire ta) * value q w (Wire tc)).
    { intros w Hw. unfold gate_holds in Hw.
      cbn [xa xb xc qL qR qO qM qC VID Coeff] in Hw.
      apply eqm_0_iff in Hw. unfold fMul, fNeg in Hw.
      rewrite tOne_eq, !mod_eqm in Hw.
      rewrite !value_Wire.
      unfold termValue. cbn [VID Coeff]. rewrite tOne_eq.
      apply (eqm_lin _ _ _ 1 Hw). ring. }
    split; [rewrite !length_app; cbn; lia|].
    intros w Hw. rewrite app_assoc in Hw.
    pose proof (Hg w (Forall_inv (Forall_app_r _ _ _ Hw))) as Hv.
    split; [exact Hv|]. intros Hm.
    destruct (HM w (Forall_app_l _ _ _ Hw) Hm) as (Hm2 & Ba & Bc).
    split; [|auto]. apply (marksSound_fresh w b2); [exact Hm2|].
    apply (isBit_connectives w (Wire ta) (Wire tc)); auto.
Qed.

(** [Xor] of operands that are terms or constants 0 or 1 returns, with at
    most three gates (two assertions and its own); under every assignment
    satisfying them its result is [a + b - 2ab], the exclusive or when
    both operands are bits. *)
Theorem Xor_sound (a c : FVariable) (b : builder) :
  boolish q a -> boolish q c ->
  returns (Xor q a c) b (fun r _ gs =>
    (List.length gs <= 3)%nat /\
    forall w, Forall (gate_holds q w) gs ->
      value q w r
      = (value q w a + value q w c - 2 * value q w a * value q w c) mod q /\
      (isBit q w a -> isBit q w c ->
       value q w r = Z.lxor (value q w a) (value q w c))).
Proof.
  intros Ha Hc. eapply returns_conseq; [apply (Xor_spec a c b Ha Hc)|].
  cbn beta. intros r b' gs [Hl H]. split; [exact Hl|]. intros w Hw.
  pose proof (proj1 (eqm_value _ _ _) (proj1 (H w Hw))) as E.
  split; [exact E|]. intros Ba Bc.
  rewrite E. apply (bits_connectives _ _ Ba Bc).
Qed.

(** [Or] of operands that are terms or constants 0 or 1 returns, with at
    most three gates; under every assignment satisfying them its result is
    [a + b - ab], the disjunction when both operands are bits. *)
Theorem Or_sound (a c : FVariable) (b : builder) :
  boolish q a -> boolish q c ->
  returns (Or q a c) b (fun r _ gs =>
    (List.length gs <= 3)%nat /\
    forall w, Forall (gate_holds q w) gs ->
      value q w r
      = (value q w a + value q w c - value q w a * value q w c) mod q /\
      (isBit q w a -> isBit q w c ->
       value q w r = Z.lor (value q w a) (value q w c))).
Proof.
  intros Ha Hc. eapply returns_conseq; [apply (Or_spec a c b Ha Hc)|].
  cbn beta. intros r b' gs [Hl H]. split; [exact Hl|]. intros w Hw.
  pose proof (proj1 (eqm_value _ _ _) (proj1 (H w Hw))) as E.
  split; [exact E|]. intros Ba Bc.
  rewrite E. apply (bits_connectives _ _ Ba Bc).
Qed.

(** [And] of operands that are terms or constants 0 or 1 returns; under
    every assignment satisfying what it emitted its result is the product
    of the operands, the conjunction when both are bits. *)
Theorem And_sound (a c : FVariable) (b : builder) :
  boolish q a -> boolish q c ->
  returns (And q a c) b (fun r _ gs =>
    forall w, Forall (gate_holds q w) gs ->
      value q w r = (value q w a * value q w c) mod q /\
      (isBit q w a -> isBit q w c ->
       value q w r = Z.land (value q w a) (value q w c))).
Proof.
  intros Ha Hc. eapply returns_conseq; [apply (And_spec a c b Ha Hc)|].
  cbn beta. intros r b' gs [_ H] w Hw.
  pose proof (proj1 (eqm_value _ _ _) (H w Hw)) as E.
  split; [exact E|]. intros Ba Bc.
  rewrite E. apply (bits_connectives _ _ Ba Bc).
Qed.

(** ** [Lookup2] and [EvaluatePlonkExpression] *)

(** The three-constraint construction of [Lookup2]. *)
Lemma Lookup2_general b0 b1 i0 i1 i2 i3 b :
  returns
    (tmp1 <- Sub q i3 i2 [] ;;
     tmp <- Sub q i0 i1 [] ;;
     tmp1a <- Add q tmp1 tmp [] ;;
     tmp1b <- Mul q tmp1a b1 [] ;;
     tmp1c <- Sub q tmp1b tmp [] ;;
     tmp2 <- Mul q tmp1c b0 [] ;;
     res <- Sub q i2 i0 [] ;;
     resa <- Mul q res b1 [] ;;
     Add q resa tmp2 [i0]) b
    (fun r _ gs =>
      (List.length (mulGates gs) <= 3)%nat /\
      forall w, Forall (gate_holds q w) gs ->
        value q w r
        == value q w i0
           + value q w b1 * (value q w i2 - value q w i0)
           + value q w b0
             * (value q w b1
                * (value q w i3 - value q w i2 - value q w i1
                   + value q w i0)
                + value q w i1 - value q w i0)).
Proof.
  apply returns_bind.
  eapply returns_conseq; [apply Sub_spec|].
  cbn beta. intros tmp1 s1 g1 [M1 H1].
  apply returns_bind.
  eapply returns_conseq; [apply Sub_spec|].
  cbn beta. intros tmp s2 g2 [M2 H2].
  apply returns_bind.
  eapply returns_conseq; [apply Add_spec|].
  cbn beta. intros tmp1a s3 g3 [M3 H3].
  apply returns_bind.
  eapply returns_conseq; [apply Mul_spec|].
  cbn beta. intros tmp1b s4 g4 (L4 & _ & H4).
  apply returns_bind.
  eapply returns_conseq; [apply Sub_spec|].
  cbn beta. intros tmp1c s5 g5 [M5 H5].
  apply returns_bind.
  eapply returns_conseq; [apply Mul_spec|].
  cbn beta. intros tmp2 s6 g6 (L6 & _ & H6).
  apply returns_bind.
  eapply returns_conseq; [apply Sub_spec|].
  cbn beta. intros res s7 g7 [M7 H7].
  apply returns_bind.
  eapply returns_conseq; [apply Mul_spec|].
  cbn beta. intros resa s8 g8 (L8 & _ & H8).
  eapply returns_conseq; [apply Add_spec|].
  cbn beta. intros r s9 g9 [M9 H9].
  split.
  - rewrite !mulGates_app, !length_app, M1, M2, M3, M5, M7, M9.
    pose proof (mulGates_length g4). pose proof (mulGates_length g6).
    pose proof (mulGates_length g8). cbn [List.length] in *. lia.
  - intros w Hw.
    repeat (apply Forall_app in Hw;
            let Hx := fresh "G" in destruct Hw as [Hx Hw]).
    rewrite (H9 w Hw). cbn [sumValues].
    rewrite (H8 w G6), (H6 w G4). cbn [prodValues].
    rewrite (H7 w G5), (H5 w G3), (H4 w G2). cbn [prodValues].
    rewrite (H3 w G1). cbn [sumValues].
    rewrite (H2 w G0), (H1 w G).
    apply eqm_of_eq. ring.
Qed.

(** On bit values the polynomial of [Lookup2] picks one of the four
    inputs. *)
Lemma lookup2_bits (B0 B1 V0 V1 V2 V3 : Z) :
  (B0 = 0 \/ B0 = 1) -> (B1 = 0 \/ B1 = 1) ->
  V0 + B1 * (V2 - V0) + B0 * (B1 * (V3 - V2 - V1 + V0) + V1 - V0)
  = if B1 =? 0 then (if B0 =? 0 then V0 else V1)
    else (if B0 =? 0 then V2 else V3).
Proof. intros [-> | ->] [-> | ->]; cbn [Z.eqb]; ring. Qed.

Lemma Lookup2_constants z0 z1 i0 i1 i2 i3 b :
  boolish q (Const z0) -> boolish q (Const z1) ->
  Lookup2 q (Const z0) (Const z1) i0 i1 i2 i3 b
  = Returned (if z1 mod q =? 0
              then (if z0 mod q =? 0 then i0 else i1)
              else (if z0 mod q =? 0 then i2 else i3)) b.
Proof.
  intros H0 H1. unfold Lookup2.
  rewrite (bind_Returned _ _ _ _ _
             (AssertIsBoolean_Const_run z0 _ (proj1 (boolish_test z0) H0))).
  rewrite (bind_Returned _ _ _ _ _
             (AssertIsBoolean_Const_run z1 _ (proj1 (boolish_test z1) H1))).
  rewrite !fIsOne_FromInterface.
  destruct H0 as [H0|H0], H1 as [H1|H1];
    rewrite ?(fIsOne_false _ H0), ?(fIsOne_false _ H1),
            ?(proj2 (fIsOne_true _) H0), ?(proj2 (fIsOne_true _) H1),
            H0, H1;
    reflexivity.
Qed.

(** [Lookup2] with selectors that are terms or constants 0 or 1 returns.
    With two constant selectors it emits nothing; otherwise, beside the two
    boolean assertions, at most three gates carry a multiplication term.
    Under every assignment satisfying what was emitted and making both
    selectors bits, the result is the input the pair selects: [i0] for
    (0,0), [i1] for (1,0), [i2] for (0,1), [i3] for (1,1). *)
Theorem Lookup2_sound (b0 b1 i0 i1 i2 i3 : FVariable) (b : builder) :
  boolish q b0 -> boolish q b1 ->
  returns (Lookup2 q b0 b1 i0 i1 i2 i3) b (fun r _ gs =>
    exists ga gl, gs = ga ++ gl /\ (List.length ga <= 2)%nat /\
      (List.length (mulGates gl) <= 3)%nat /\
      (isConst b0 = true -> isConst b1 = true -> gs = []) /\
      forall w, Forall (gate_holds q w) gs ->
        isBit q w b0 -> isBit q w b1 ->
        value q w r
        = value q w (if value q w b1 =? 0
                     then (if value q w b0 =? 0 then i0 else i1)
                     else (if value q w b0 =? 0 then i2 else i3))).
Proof.
  intros Hb0 Hb1.
  assert (Hgen : (isConst b0 = false \/ isConst b1 = false) ->
    forall g1 g2 s2, returns
      (tmp1 <- Sub q i3 i2 [] ;;
       tmp <- Sub q i0 i1 [] ;;
       tmp1a <- Add q tmp1 tmp [] ;;
       tmp1b <- Mul q tmp1a b1 [] ;;
       tmp1c <- Sub q tmp1b tmp [] ;;
       tmp2 <- Mul q tmp1c b0 [] ;;
       res <- Sub q i2 i0 [] ;;
       resa <- Mul q res b1 [] ;;
       Add q resa tmp2 [i0]) s2
      (fun r _ gs2 =>
        (List.length g1 <= 1)%nat -> (List.length g2 <= 1)%nat ->
        exists ga gl, g1 ++ g2 ++ gs2 = ga ++ gl /\
          (List.length ga <= 2)%nat /\
          (List.length (mulGates gl) <= 3)%nat /\
          (isConst b0 = true -> isConst b1 = true ->
           g1 ++ g2 ++ gs2 = []) /\
          forall w, Forall (gate_holds q w) (g1 ++ g2 ++ gs2) ->
            isBit q w b0 -> isBit q w b1 ->
            value q w r
            = value q w (if value q w b1 =? 0
                         then (if value q w b0 =? 0 then i0 else i1)
                         else (if value q w b0 =? 0 then i2 else i3)))).
  { intros Hnc g1 g2 s2.
    eapply returns_conseq; [apply Lookup2_general|].
    cbn beta. intros r s3 gl [Lm H] L1 L2.
    exists (g1 ++ g2), gl. split; [now rewrite app_assoc|].
    split; [rewrite length_app; lia|]. split; [exact Lm|].
    split; [intros C0 C1; destruct Hnc; congruence|].
    intros w Hw B0 B1.
    apply Forall_app_r, Forall_app_r in Hw.
    pose proof (proj1 (eqm_value _ _ _) (H w Hw)) as E.
    rewrite E, (lookup2_bits _ _ _ _ _ _ B0 B1).
    destruct (value q w b1 =? 0), (value q w b0 =? 0);
      apply value_canonical. }
  assert (Hrun : (isConst b0 = false \/ isConst b1 = false) ->
    Lookup2 q b0 b1 i0 i1 i2 i3
    = (AssertIsBoolean q b0 ;;;
       AssertIsBoolean q b1 ;;;
       tmp1 <- Sub q i3 i2 [] ;;
       tmp <- Sub q i0 i1 [] ;;
       tmp1a <- Add q tmp1 tmp [] ;;
       tmp1b <- Mul q tmp1a b1 [] ;;
       tmp1c <- Sub q tmp1b tmp [] ;;
       tmp2 <- Mul q tmp1c b0 [] ;;
       res <- Sub q i2 i0 [] ;;
       resa <- Mul q res b1 [] ;;
       Add q resa tmp2 [i0])).
  { intros Hnc. unfold Lookup2.
    destruct b0, b1; try reflexivity.
    destruct Hnc; discriminate. }
  destruct (isConst b0) eqn:C0; [destruct (isConst b1) eqn:C1|].
  - destruct b0 as [z0|], b1 as [z1|]; try discriminate.
    eexists _, b, []. split; [apply (Lookup2_constants _ _ _ _ _ _ _ Hb0 Hb1)|].
    split; [unfold emits; now rewrite app_nil_r|].
    exists [], []. split; [reflexivity|]. split; [cbn; lia|].
    split; [cbn; lia|]. split; [reflexivity|].
    intros w _ _ _. reflexivity.
  - rewrite Hrun by now right.
    apply returns_bind.
    eapply returns_conseq; [apply AssertIsBoolean_spec; exact Hb0|].
    cbn beta. intros [] s1 g1 L1.
    apply returns_bind.
    eapply returns_conseq; [apply AssertIsBoolean_spec; exact Hb1|].
    cbn beta. intros [] s2 g2 L2.
    eapply returns_conseq; [apply (Hgen ltac:(now right) g1 g2)|].
    cbn beta. intros r s3 gs H. now apply H.
  - rewrite Hrun by now left.
    apply returns_bind.
    eapply returns_conseq; [apply AssertIsBoolean_spec; exact Hb0|].
    cbn beta. intros [] s1 g1 L1.
    apply returns_bind.
    eapply returns_conseq; [apply AssertIsBoolean_spec; exact Hb1|].
    cbn beta. intros [] s2 g2 L2.
    eapply returns_conseq; [apply (Hgen ltac:(now left) g1 g2)|].
    cbn beta. intros r s3 gs H. now apply H.
Qed.





(** ** The boolean marks are sound *)

Lemma splitProd_marks (r : list Term) : forall acc b,
  returns (splitProd q acc r) b (fun _ b' _ => mtBooleans b' = mtBooleans b).
Proof.
  induction r as [|t r IH]; intros acc b; cbn [splitProd].
  - now apply returns_ret.
  - apply returns_bind, returns_new. apply returns_bind, returns_gate.
    eapply returns_conseq; [apply IH|]. cbn beta. intros _ b' _ H. exact H.
Qed.

Lemma Mul_marks i1 i2 ins b :
  returns (Mul q i1 i2 ins) b (fun _ b' _ => mtBooleans b' = mtBooleans b).
Proof.
  unfold Mul. destruct (filterConstantProd q (i1 :: i2 :: ins)) as [vars k].
  destruct vars as [|v0 rest]; [now apply returns_ret|].
  destruct (fIsZero q k); [now apply returns_ret|].
  destruct (existsb (fun t => fIsZero q (Coeff t)) (v0 :: rest));
    [now apply returns_ret|].
  apply returns_bind.
  eapply returns_conseq; [apply splitProd_marks|].
  cbn beta. intros t b' gs H. now apply returns_ret.
Qed.

Lemma And_marks a c b :
  boolish q a -> boolish q c ->
  returns (And q a c) b (fun r b' gs =>
    forall w, Forall (gate_holds q w) gs -> marksSound q w b ->
      marksSound q w b' /\ isBit q w r).
Proof.
  intros Ha Hc. unfold And.
  apply returns_bind.
  eapply returns_conseq; [apply AssertIsBoolean_marks; exact Ha|].
  cbn beta. intros [] b1 g1 [_ M1].
  apply returns_bind.
  eapply returns_conseq; [apply AssertIsBoolean_marks; exact Hc|].
  cbn beta. intros [] b2 g2 [_ M2].
  apply returns_bind.
  eapply returns_conseq;
    [apply (returns_both _ _ _ _ (Mul_spec a c [] b2) (Mul_marks a c [] b2))|].
  cbn beta. intros r b3 gm [(_ & _ & Hv) Hk].
  assert (Hfin : forall w, Forall (gate_holds q w) (g1 ++ g2 ++ gm ++ []) ->
            marksSound q w b -> marksSound q w b3 /\ isBit q w r).
  { intros w Hw Hm. rewrite app_nil_r in Hw.
    destruct (M1 w (Forall_app_l _ _ _ Hw) Hm) as [Hm1 Ba].
    apply Forall_app_r in Hw.
    destruct (M2 w (Forall_app_l _ _ _ Hw) Hm1) as [Hm2 Bc].
    apply Forall_app_r in Hw. split.
    - intros u Hu. rewrite Hk in Hu. exact (Hm2 u Hu).
    - apply (isBit_connectives w a c); auto. right. right.
      rewrite (Hv w Hw). cbn [prodValues]. apply eqm_of_eq. ring. }
  destruct r as [z|t].
  - eexists _, b3, []. split; [reflexivity|].
    split; [unfold emits; now rewrite app_nil_r|]. exact Hfin.
  - eexists _, _, []. split; [reflexivity|].
    split; [unfold emits; cbn [constraints]; now rewrite app_nil_r|].
    intros w Hw Hm. destruct (Hfin w Hw Hm) as [Hm3 Br].
    split; [|exact Br].
    intros u [<- | Hu]; [exact Br|exact (Hm3 u Hu)].
Qed.

Lemma IsZero_marks v b :
  returns (IsZero q v) b (fun r b' gs =>
    forall w, Forall (gate_holds q w) gs -> marksSound q w b ->
      marksSound q w b' /\ isBit q w r).
Proof.
  destruct v as [z|a].
  - cbn [IsZero]. destruct (fIsZero q (FromInterface q z));
      apply returns_ret; intros w _ Hm; (split; [exact Hm|]).
    + right. apply small_1.
    + left. apply small_0.
  - eexists _, _, _. split; [apply IsZero_Wire_run|].
    split; [reflexivity|]. intros w Hw Hm.
    inversion Hw as [|g1 l1 G1 Hw1]; subst.
    inversion Hw1 as [|g2 l2 G2 _]; subst.
    destruct (isZero_gates_sound w a _ _ G1 G2) as [S0 S1].
    assert (Hb : isBit q w (Wire (mkTerm (nbVariables b) (tOne q)))).
    { apply isBit_eqm. rewrite !value_Wire.
      unfold termValue. cbn [VID Coeff]. rewrite tOne_eq.
      destruct (Z.eq_dec (termValue w a mod q) (0 mod q)) as [E|E].
      - right. rewrite (S0 E). apply eqm_of_eq. ring.
      - left. rewrite (S1 E). apply eqm_of_eq. ring. }
    split; [|exact Hb]. apply (marksSound_fresh w b); assumption.
Qed.

(** The boolean marks never lie: [AssertIsBoolean], [IsZero], [Xor], [Or]
    and [And] are the operations that record a term as boolean; each of
    them, run from a builder whose marked terms are all bits under an
    assignment that also satisfies the gates it emits, leaves a builder
    whose marked terms are all bits, and its operand (for the assertion)
    or result (for the others) is a bit. *)
Theorem boolean_marks_sound (a c : FVariable) (b : builder) :
  boolish q a -> boolish q c ->
  returns (AssertIsBoolean q a) b (fun _ b' gs =>
    forall w, Forall (gate_holds q w) gs -> marksSound q w b ->
      marksSound q w b' /\ isBit q w a) /\
  returns (IsZero q a) b (fun r b' gs =>
    forall w, Forall (gate_holds q w) gs -> marksSound q w b ->
      marksSound q w b' /\ isBit q w r) /\
  returns (Xor q a c) b (fun r b' gs =>
    forall w, Forall (gate_holds q w) gs -> marksSound q w b ->
      marksSound q w b' /\ isBit q w r) /\
  returns (Or q a c) b (fun r b' gs =>
    forall w, Forall (gate_holds q w) gs -> marksSound q w b ->
      marksSound q w b' /\ isBit q w r) /\
  returns (And q a c) b (fun r b' gs =>
    forall w, Forall (gate_holds q w) gs -> marksSound q w b ->
      marksSound q w b' /\ isBit q w r).
Proof.
  intros Ha Hc. split; [|split; [|split; [|split]]].
  - eapply returns_conseq; [apply (AssertIsBoolean_marks a b Ha)|].
    cbn beta. intros _ b' gs [_ H]. exact H.
  - apply IsZero_marks.
  - eapply returns_conseq; [apply (Xor_spec a c b Ha Hc)|].
    cbn beta. intros r b' gs [_ H] w Hw Hm.
    destruct (H w Hw) as [Hv HM]. destruct (HM Hm) as (Hm' & Ba & Bc).
    split; [exact Hm'|]. apply (isBit_connectives w a c); auto.
  - eapply returns_conseq; [apply (Or_spec a c b Ha Hc)|].
    cbn beta. intros r b' gs [_ H] w Hw Hm.
    destruct (H w Hw) as [Hv HM]. destruct (HM Hm) as (Hm' & Ba & Bc).
    split; [exact Hm'|]. apply (isBit_connectives w a c); auto.
  - now apply And_marks.
Qed.

End Field.

(** ** Gates refer to allocated wires only *)

Section Wires.

Variable q : Z.

Lemma wfGate_mono n m g : (n <= m)%nat -> wfGate n g -> wfGate m g.
Proof. unfold wfGate. lia. Qed.

Lemma wfVar_mono n m v : (n <= m)%nat -> wfVar n v -> wfVar m v.
Proof. destruct v; cbn [wfVar]; unfold wfTerm; [auto|lia]. Qed.

Lemma wfTerms_mono n m (l : list Term) :
  (n <= m)%nat -> Forall (wfTerm n) l -> Forall (wfTerm m) l.
Proof.
  intros H. apply Forall_impl. unfold wfTerm. lia.
Qed.

Lemma wfVars_mono n m (l : list FVariable) :
  (n <= m)%nat -> Forall (wfVar n) l -> Forall (wfVar m) l.
Proof. intros H. apply Forall_impl. intros v. now apply wfVar_mono. Qed.

Lemma wfFrom_ret {A} (R : nat -> A -> Prop) (a : A) b :
  R (nbVariables b) a -> wfFrom R (ret a) b.
Proof.
  intros H a' b' [= <- <-]. split; [lia|]. split; [exact H|].
  exists []. split; [|constructor]. unfold emits. now rewrite app_nil_r.
Qed.

Lemma wfFrom_panic {A} (R : nat -> A -> Prop) msg b :
  wfFrom R (panic msg) b.
Proof. intros a b' E. discriminate E. Qed.

Lemma wfFrom_bind {A B} (R : nat -> A -> Prop) (R' : nat -> B -> Prop)
    (m : M A) (k : A -> M B) b :
  wfFrom R m b ->
  (forall a b1, (nbVariables b <= nbVariables b1)%nat ->
     R (nbVariables b1) a -> wfFrom R' (k a) b1) ->
  wfFrom R' (bind m k) b.
Proof.
  intros Hm Hk r b2 E. unfold bind in E.
  destruct (m b) as [a b1|] eqn:Em; [|discriminate].
  destruct (Hm a b1 Em) as (L1 & Ra & gs1 & X1 & F1).
  destruct (Hk a b1 L1 Ra r b2 E) as (L2 & Rr & gs2 & X2 & F2).
  split; [lia|]. split; [exact Rr|]. exists (gs1 ++ gs2). split.
  - unfold emits in *. now rewrite X2, X1, app_assoc.
  - apply Forall_app. split; [|exact F2].
    eapply Forall_impl; [|exact F1]. intros g. now apply wfGate_mono.
Qed.

Lemma wfFrom_conseq {A} (R R' : nat -> A -> Prop) (m : M A) b :
  wfFrom R m b -> (forall n a, R n a -> R' n a) -> wfFrom R' m b.
Proof.
  intros Hm HR a b' E. destruct (Hm a b' E) as (L & Ra & H).
  split; [exact L|]. split; [now apply HR|exact H].
Qed.

Lemma wfFrom_new b : wfFrom wfTerm (newInternalVariable q) b.
Proof.
  intros a b' [= <- <-]. cbn [nbVariables]. split; [lia|].
  split; [unfold wfTerm; cbn; lia|].
  exists []. split; [|constructor]. unfold emits. cbn. now rewrite app_nil_r.
Qed.

Lemma wfFrom_gate g b :
  wfGate (nbVariables b) g ->
  wfFrom (fun _ _ => True) (addPlonkConstraint g) b.
Proof.
  intros H a b' [= <- <-]. cbn [nbVariables]. split; [lia|].
  split; [exact I|]. exists [g]. split; [reflexivity|]. now constructor.
Qed.

Lemma wfFrom_mark (v : FVariable) b :
  wfFrom (fun _ _ => True) (MarkBoolean v) b.
Proof.
  intros a b' E. destruct v; injection E as <- <-; cbn [nbVariables];
    (split; [lia|]); (split; [exact I|]);
    exists []; (split; [|constructor]); unfold emits; cbn;
    now rewrite app_nil_r.
Qed.

Lemma wfFrom_asTerm v b :
  wfVar (nbVariables b) v -> wfFrom wfTerm (asTerm v) b.
Proof.
  intros H. destruct v; cbn [asTerm];
    [apply wfFrom_panic|now apply wfFrom_ret].
Qed.

Lemma wfFrom_index (l : list FVariable) i b :
  Forall (wfVar (nbVariables b)) l -> wfFrom wfVar (index l i) b.
Proof.
  intros H. unfold index. destruct (nth_error l i) as [a|] eqn:E.
  - apply wfFrom_ret. rewrite Forall_forall in H.
    apply H. eapply nth_error_In, E.
  - apply wfFrom_panic.
Qed.

Lemma wfFrom_hint f k ins b :
  wfFrom (fun n r => match r with
                     | Ok outs => Forall (wfVar n) outs
                     | Err _ => True
                     end) (NewHint q f k ins) b.
Proof.
  intros a b' E. unfold NewHint in E.
  destruct (k <=? 0); injection E as <- <-; cbn [nbVariables].
  - split; [lia|]. split; [exact I|]. exists [].
    split; [|constructor]. unfold emits. now rewrite app_nil_r.
  - split; [lia|]. split.
    + apply Forall_forall. intros v Hv. apply in_map_iff in Hv.
      destruct Hv as (i & <- & Hi). apply in_seq in Hi.
      cbn [wfVar]. unfold wfTerm. cbn [VID]. lia.
    + exists []. split; [|constructor]. unfold emits. cbn.
      now rewrite app_nil_r.
Qed.

(** *** The helpers *)

Lemma splitSum_wf (r : list Term) : forall acc k b,
  wfTerm (nbVariables b) acc -> Forall (wfTerm (nbVariables b)) r ->
  wfFrom wfTerm (splitSum q acc r k) b.
Proof.
  induction r as [|t r IH]; intros acc k b Ha Hr; cbn [splitSum].
  - destruct k as [c|]; [|now apply wfFrom_ret].
    eapply wfFrom_bind; [apply wfFrom_new|]. intros o b1 L1 Ho.
    eapply wfFrom_bind.
    + apply wfFrom_gate. unfold wfGate, wfTerm in *. cbn [xa xb xc]. lia.
    + intros _ b2 L2 _. apply wfFrom_ret. unfold wfTerm in *. lia.
  - inversion Hr as [|? ? Ht Hr']; subst.
    eapply wfFrom_bind; [apply wfFrom_new|]. intros o b1 L1 Ho.
    eapply wfFrom_bind.
    + apply wfFrom_gate. unfold wfGate, wfTerm in *. cbn [xa xb xc]. lia.
    + intros _ b2 L2 _. apply IH.
      * unfold wfTerm in *. lia.
      * eapply wfTerms_mono; [|exact Hr']. lia.
Qed.

Lemma splitProd_wf (r : list Term) : forall acc b,
  wfTerm (nbVariables b) acc -> Forall (wfTerm (nbVariables b)) r ->
  wfFrom wfTerm (splitProd q acc r) b.
Proof.
  induction r as [|t r IH]; intros acc b Ha Hr; cbn [splitProd].
  - now apply wfFrom_ret.
  - inversion Hr as [|? ? Ht Hr']; subst.
    eapply wfFrom_bind; [apply wfFrom_new|]. intros o b1 L1 Ho.
    eapply wfFrom_bind.
    + apply wfFrom_gate. unfold wfGate, wfTerm in *. cbn [xa xb xc]. lia.
    + intros _ b2 L2 _. apply IH.
      * unfold wfTerm in *. lia.
      * eapply wfTerms_mono; [|exact Hr']. lia.
Qed.

Lemma mergeTerm_wf n t acc :
  wfTerm n t -> Forall (wfTerm n) acc -> Forall (wfTerm n) (mergeTerm q t acc).
Proof.
  intros Ht. induction acc as [|u acc IH]; intros Ha; cbn [mergeTerm].
  - now constructor.
  - inversion Ha as [|? ? Hu Ha']; subst.
    destruct (Nat.eqb (VID u) (VID t)); constructor; auto.
Qed.

Lemma reduce_wf n (l : list Term) :
  Forall (wfTerm n) l -> Forall (wfTerm n) (reduce q l).
Proof.
  unfold reduce. generalize (@nil Term) (Forall_nil (wfTerm n)).
  induction l as [|t l IH]; intros acc Hacc Hl; cbn [fold_left].
  - exact Hacc.
  - inversion Hl as [|? ? Ht Hl']; subst.
    apply IH; [now apply mergeTerm_wf|exact Hl'].
Qed.

Lemma wires_wf n (l : list FVariable) :
  Forall (wfVar n) l -> Forall (wfTerm n) (wires l).
Proof.
  induction l as [|[z|t] l IH]; intros H; cbn [wires];
    inversion H; subst; auto.
Qed.

Lemma filterConstantSum_wf n (l : list FVariable) : forall res k,
  Forall (wfTerm n) res -> Forall (wfVar n) l ->
  Forall (wfTerm n) (fst (filterConstantSum_aux q l res k)).
Proof.
  induction l as [|[z|t] l IH]; intros res k Hr Hl;
    cbn [filterConstantSum_aux]; inversion Hl; subst; auto.
  apply IH; [|assumption]. apply Forall_app. split; [exact Hr|].
  constructor; [assumption|constructor].
Qed.

Lemma filterConstantProd_wf n (l : list FVariable) : forall res k,
  Forall (wfTerm n) res -> Forall (wfVar n) l ->
  Forall (wfTerm n) (fst (filterConstantProd_aux q l res k)).
Proof.
  induction l as [|[z|t] l IH]; intros res k Hr Hl;
    cbn [filterConstantProd_aux]; inversion Hl; subst; auto.
  - destruct (fIsZero q (fMul q k (FromInterface q z))); cbn [fst]; auto.
  - apply IH; [|assumption]. apply Forall_app. split; [exact Hr|].
    constructor; [assumption|constructor].
Qed.

Lemma Neg_wf n v : wfVar n v -> wfVar n (Neg q v).
Proof. destruct v; cbn [Neg wfVar]; auto. Qed.

(** *** The operations *)

Lemma Add_wf i1 i2 ins b :
  wfVar (nbVariables b) i1 -> wfVar (nbVariables b) i2 ->
  Forall (wfVar (nbVariables b)) ins ->
  wfFrom wfVar (Add q i1 i2 ins) b.
Proof.
  intros H1 H2 Hi. unfold Add.
  pose proof (filterConstantSum_wf (nbVariables b) (i1 :: i2 :: ins) []
                (0 mod q) (Forall_nil _)
                (Forall_cons _ H1 (Forall_cons _ H2 Hi))) as Hf.
  fold (filterConstantSum q (i1 :: i2 :: ins)) in Hf.
  destruct (filterConstantSum q (i1 :: i2 :: ins)) as [vars k].
  cbn [fst] in Hf.
  destruct vars as [|v vars]; [now apply wfFrom_ret|].
  pose proof (reduce_wf _ _ Hf) as Hr.
  destruct (reduce q (v :: vars)) as [|v0 rest]; [apply wfFrom_panic|].
  inversion Hr as [|? ? Hv0 Hrest]; subst.
  destruct (fIsZero q k);
    (eapply wfFrom_bind; [now apply splitSum_wf|]);
    intros t b1 _ Ht; now apply wfFrom_ret.
Qed.

Lemma Sub_wf i1 i2 ins b :
  wfVar (nbVariables b) i1 -> wfVar (nbVariables b) i2 ->
  Forall (wfVar (nbVariables b)) ins ->
  wfFrom wfVar (Sub q i1 i2 ins) b.
Proof.
  intros H1 H2 Hi. unfold Sub. cbn [neg map].
  apply Add_wf; [exact H1|now apply Neg_wf|].
  apply Forall_forall. intros v Hv. apply in_map_iff in Hv.
  destruct Hv as (u & <- & Hu). apply Neg_wf.
  rewrite Forall_forall in Hi. now apply Hi.
Qed.

Lemma Mul_wf i1 i2 ins b :
  wfVar (nbVariables b) i1 -> wfVar (nbVariables b) i2 ->
  Forall (wfVar (nbVariables b)) ins ->
  wfFrom wfVar (Mul q i1 i2 ins) b.
Proof.
  intros H1 H2 Hi. unfold Mul.
  pose proof (filterConstantProd_wf (nbVariables b) (i1 :: i2 :: ins) []
                (tOne q) (Forall_nil _)
                (Forall_cons _ H1 (Forall_cons _ H2 Hi))) as Hf.
  fold (filterConstantProd q (i1 :: i2 :: ins)) in Hf.
  destruct (filterConstantProd q (i1 :: i2 :: ins)) as [vars k].
  cbn [fst] in Hf.
  destruct vars as [|v0 rest]; [now apply wfFrom_ret|].
  inversion Hf as [|? ? Hv0 Hrest]; subst.
  destruct (fIsZero q k); [now apply wfFrom_ret|].
  destruct (existsb (fun t => fIsZero q (Coeff t)) (v0 :: rest));
    [now apply wfFrom_ret|].
  eapply wfFrom_bind; [now apply splitProd_wf|].
  intros t b1 _ Ht. now apply wfFrom_ret.
Qed.


Lemma Inverse_wf i1 b :
  wfVar (nbVariables b) i1 -> wfFrom wfVar (Inverse q i1) b.
Proof.
  intros H. destruct i1 as [z|t]; cbn [Inverse].
  - destruct (fIsZero q (FromInterface q z));
      [apply wfFrom_panic|now apply wfFrom_ret].
  - eapply wfFrom_bind; [apply wfFrom_new|]. intros o b1 L1 Ho.
    eapply wfFrom_bind.
    + apply wfFrom_gate. cbn [wfVar] in H.
      unfold wfGate, wfTerm in *. cbn [xa xb xc]. lia.
    + intros _ b2 L2 _. apply wfFrom_ret. cbn [wfVar].
      unfold wfTerm in *. lia.
Qed.

Lemma DivUnchecked_wf i1 i2 b :
  wfVar (nbVariables b) i1 -> wfVar (nbVariables b) i2 ->
  wfFrom wfVar (DivUnchecked q i1 i2) b.
Proof.
  intros H1 H2. destruct i1 as [z1|t1], i2 as [z2|t2]; cbn [DivUnchecked].
  - destruct (fIsZero q (FromInterface q z2));
      [apply wfFrom_panic|now apply wfFrom_ret].
  - eapply wfFrom_bind; [now apply Inverse_wf|]. intros r b1 L1 Hr.
    eapply wfFrom_bind; [now apply wfFrom_asTerm|]. intros t b2 L2 Ht.
    now apply wfFrom_ret.
  - destruct (fIsZero q (FromInterface q z2));
      [apply wfFrom_panic|now apply wfFrom_ret].
  - eapply wfFrom_bind; [apply wfFrom_new|]. intros o b1 L1 Ho.
    eapply wfFrom_bind.
    + apply wfFrom_gate. cbn [wfVar] in *.
      unfold wfGate, wfTerm in *. cbn [xa xb xc]. lia.
    + intros _ b2 L2 _. apply wfFrom_ret. cbn [wfVar].
      unfold wfTerm in *. lia.
Qed.

Lemma Div_wf i1 i2 b :
  wfVar (nbVariables b) i1 -> wfVar (nbVariables b) i2 ->
  wfFrom wfVar (Div q i1 i2) b.
Proof.
  intros H1 H2. unfold Div.
  eapply wfFrom_bind; [now apply Inverse_wf|]. intros r b1 L1 Hr.
  apply DivUnchecked_wf; eapply wfVar_mono; eauto.
Qed.

Lemma AssertIsBoolean_wf v b :
  wfVar (nbVariables b) v ->
  wfFrom (fun _ _ => True) (AssertIsBoolean q v) b.
Proof.
  intros H. destruct v as [z|t]; cbn [AssertIsBoolean].
  - destruct (fIsZero q z || fIsOne q z);
      [now apply wfFrom_ret|apply wfFrom_panic].
  - eapply wfFrom_bind with (R := fun _ _ => True).
    + intros a b' [= <- <-]. split; [lia|]. split; [exact I|].
      exists []. split; [|constructor]. unfold emits. now rewrite app_nil_r.
    + intros known b1 L1 _. destruct known; [now apply wfFrom_ret|].
      eapply wfFrom_bind; [apply wfFrom_mark|]. intros _ b2 L2 _.
      apply wfFrom_gate. cbn [wfVar] in H.
      unfold wfGate, wfTerm in *. cbn [xa xb xc]. lia.
Qed.

Lemma IsZero_wf i1 b :
  wfVar (nbVariables b) i1 -> wfFrom wfVar (IsZero q i1) b.
Proof.
  intros H. destruct i1 as [z|a]; cbn [IsZero].
  - destruct (fIsZero q (FromInterface q z)); now apply wfFrom_ret.
  - cbn [wfVar] in H.
    eapply wfFrom_bind; [apply wfFrom_new|]. intros m b1 L1 Hm.
    eapply wfFrom_bind; [apply wfFrom_hint|]. intros [outs|msg] b2 L2 Ho;
      [|apply wfFrom_panic].
    eapply wfFrom_bind; [now apply wfFrom_index|]. intros x0 b3 L3 Hx0.
    eapply wfFrom_bind; [now apply wfFrom_asTerm|]. intros X b4 L4 HX.
    eapply wfFrom_bind.
    { apply wfFrom_gate. unfold wfGate, wfTerm in *. cbn [xa xb xc]. lia. }
    intros _ b5 L5 _.
    eapply wfFrom_bind.
    { apply wfFrom_gate. unfold wfGate, wfTerm in *. cbn [xa xb xc]. lia. }
    intros _ b6 L6 _.
    eapply wfFrom_bind; [apply wfFrom_mark|]. intros _ b7 L7 _.
    apply wfFrom_ret. cbn [wfVar]. unfold wfTerm in *. lia.
Qed.

Lemma fresh_marked_gate_wf (g : Term -> sparseR1C) b :
  (forall o n, (nbVariables b <= n)%nat -> wfTerm n o -> wfGate n (g o)) ->
  wfFrom wfVar
    (res <- newInternalVariable q ;;
     MarkBoolean (Wire res) ;;;
     addPlonkConstraint (g res) ;;;
     ret (Wire res)) b.
Proof.
  intros Hg.
  eapply wfFrom_bind; [apply wfFrom_new|]. intros o b1 L1 Ho.
  eapply wfFrom_bind; [apply wfFrom_mark|]. intros _ b2 L2 _.
  eapply wfFrom_bind.
  - apply wfFrom_gate. apply Hg; [lia|]. unfold wfTerm in *. lia.
  - intros _ b3 L3 _. apply wfFrom_ret. cbn [wfVar].
    unfold wfTerm in *. lia.
Qed.

Lemma Xor_wf a c b :
  wfVar (nbVariables b) a -> wfVar (nbVariables b) c ->
  wfFrom wfVar (Xor q a c) b.
Proof.
  intros Ha Hc. unfold Xor.
  eapply wfFrom_bind; [now apply AssertIsBoolean_wf|]. intros _ b1 L1 _.
  eapply wfFrom_bind.
  { apply AssertIsBoolean_wf. eapply wfVar_mono; eauto. }
  intros _ b2 L2 _.
  destruct a as [za|ta], c as [zc|tc]; cbn [wfVar] in *.
  - now apply wfFrom_ret.
  - apply (fresh_marked_gate_wf
             (fun res => mkR1C (VID tc) 0 (VID res) _ 0 _ 0 _ NOT)).
    intros o n Hn Ho. unfold wfGate, wfTerm in *. cbn [xa xb xc]. lia.
  - apply (fresh_marked_gate_wf
             (fun res => mkR1C (VID ta) 0 (VID res) _ 0 _ 0 _ NOT)).
    intros o n Hn Ho. unfold wfGate, wfTerm in *. cbn [xa xb xc]. lia.
  - apply (fresh_marked_gate_wf
             (fun res => mkR1C (VID ta) (VID tc) (VID res) _ _ _ _ 0 NOT)).
    intros o n Hn Ho. unfold wfGate, wfTerm in *. cbn [xa xb xc]. lia.
Qed.

Lemma Or_wf a c b :
  wfVar (nbVariables b) a -> wfVar (nbVariables b) c ->
  wfFrom wfVar (Or q a c) b.
Proof.
  intros Ha Hc. unfold Or.
  eapply wfFrom_bind; [now apply AssertIsBoolean_wf|]. intros _ b1 L1 _.
  eapply wfFrom_bind.
  { apply AssertIsBoolean_wf. eapply wfVar_mono; eauto. }
  intros _ b2 L2 _.
  destruct a as [za|ta], c as [zc|tc]; cbn [wfVar] in *.
  - destruct (fIsOne q (FromInterface q za) || fIsOne q (FromInterface q zc));
      now apply wfFrom_ret.
  - destruct (fIsOne q (FromInterface q za)); apply wfFrom_ret;
      cbn [wfVar]; unfold wfTerm in *; try exact I; lia.
  - destruct (fIsOne q (FromInterface q zc)); apply wfFrom_ret;
      cbn [wfVar]; unfold wfTerm in *; try exact I; lia.
  - apply (fresh_marked_gate_wf
             (fun res => mkR1C (VID ta) (VID tc) (VID res) _ _ _ _ 0 NOT)).
    intros o n Hn Ho. unfold wfGate, wfTerm in *. cbn [xa xb xc]. lia.
Qed.

Lemma And_wf a c b :
  wfVar (nbVariables b) a -> wfVar (nbVariables b) c ->
  wfFrom wfVar (And q a c) b.
Proof.
  intros Ha Hc. unfold And.
  eapply wfFrom_bind; [now apply AssertIsBoolean_wf|]. intros _ b1 L1 _.
  eapply wfFrom_bind.
  { apply AssertIsBoolean_wf. eapply wfVar_mono; eauto. }
  intros _ b2 L2 _.
  eapply wfFrom_bind.
  { apply Mul_wf; [eapply wfVar_mono; [|exact Ha]; lia
                  |eapply wfVar_mono; [|exact Hc]; lia|constructor]. }
  intros r b3 L3 Hr.
  eapply wfFrom_bind; [apply wfFrom_mark|]. intros _ b4 L4 _.
  apply wfFrom_ret. eapply wfVar_mono; eauto.
Qed.

Lemma Select_wf c i1 i2 b :
  wfVar (nbVariables b) c -> wfVar (nbVariables b) i1 ->
  wfVar (nbVariables b) i2 ->
  wfFrom wfVar (Select q c i1 i2) b.
Proof.
  intros Hc H1 H2. destruct c as [z|t]; cbn [Select].
  - eapply wfFrom_bind with (R := fun _ _ => True).
    + intros a b' [= <- <-]. split; [lia|]. split; [exact I|].
      exists []. split; [|constructor]. unfold emits. now rewrite app_nil_r.
    + intros isb b1 L1 _. destruct isb; cbn [negb]; [|apply wfFrom_panic].
      destruct (fIsZero q (FromInterface q z)); apply wfFrom_ret;
        eapply wfVar_mono; eauto.
  - eapply wfFrom_bind; [now apply AssertIsBoolean_wf|]. intros _ b1 L1 _.
    eapply wfFrom_bind.
    { apply Sub_wf; [eapply wfVar_mono; eauto..|constructor]. }
    intros u b2 L2 Hu.
    eapply wfFrom_bind.
    { apply Mul_wf; [exact Hu| |constructor].
      eapply wfVar_mono; [|exact Hc]. lia. }
    intros l b3 L3 Hl.
    apply Add_wf; [exact Hl| |constructor].
    eapply wfVar_mono; [|exact H2]. lia.
Qed.

Lemma Lookup2_general_wf b0 b1 i0 i1 i2 i3 b :
  wfVar (nbVariables b) b0 -> wfVar (nbVariables b) b1 ->
  wfVar (nbVariables b) i0 -> wfVar (nbVariables b) i1 ->
  wfVar (nbVariables b) i2 -> wfVar (nbVariables b) i3 ->
  wfFrom wfVar
    (tmp1 <- Sub q i3 i2 [] ;;
     tmp <- Sub q i0 i1 [] ;;
     tmp1a <- Add q tmp1 tmp [] ;;
     tmp1b <- Mul q tmp1a b1 [] ;;
     tmp1c <- Sub q tmp1b tmp [] ;;
     tmp2 <- Mul q tmp1c b0 [] ;;
     res <- Sub q i2 i0 [] ;;
     resa <- Mul q res b1 [] ;;
     Add q resa tmp2 [i0]) b.
Proof.
  intros Hb0 Hb1 H0 H1 H2 H3.
  eapply wfFrom_bind; [apply Sub_wf; auto|]. intros tmp1 s1 L1 T1.
  eapply wfFrom_bind.
  { apply Sub_wf; [eapply wfVar_mono; eauto..|constructor]. }
  intros tmp s2 L2 T2.
  eapply wfFrom_bind.
  { apply Add_wf; [eapply wfVar_mono; eauto|exact T2|constructor]. }
  intros tmp1a s3 L3 T3.
  eapply wfFrom_bind.
  { apply Mul_wf; [exact T3| |constructor].
    eapply wfVar_mono; [|exact Hb1]. lia. }
  intros tmp1b s4 L4 T4.
  eapply wfFrom_bind.
  { apply Sub_wf; [exact T4| |constructor].
    eapply wfVar_mono; [|exact T2]. lia. }
  intros tmp1c s5 L5 T5.
  eapply wfFrom_bind.
  { apply Mul_wf; [exact T5| |constructor].
    eapply wfVar_mono; [|exact Hb0]. lia. }
  intros tmp2 s6 L6 T6.
  eapply wfFrom_bind.
  { apply Sub_wf; [| |constructor].
    - eapply wfVar_mono; [|exact H2]. lia.
    - eapply wfVar_mono; [|exact H0]. lia. }
  intros res s7 L7 T7.
  eapply wfFrom_bind.
  { apply Mul_wf; [exact T7| |constructor].
    eapply wfVar_mono; [|exact Hb1]. lia. }
  intros resa s8 L8 T8.
  apply Add_wf; [exact T8| |constructor; [|constructor]].
  - eapply wfVar_mono; [|exact T6]. lia.
  - eapply wfVar_mono; [|exact H0]. lia.
Qed.

Lemma Lookup2_wf b0 b1 i0 i1 i2 i3 b :
  wfVar (nbVariables b) b0 -> wfVar (nbVariables b) b1 ->
  wfVar (nbVariables b) i0 -> wfVar (nbVariables b) i1 ->
  wfVar (nbVariables b) i2 -> wfVar (nbVariables b) i3 ->
  wfFrom wfVar (Lookup2 q b0 b1 i0 i1 i2 i3) b.
Proof.
  intros Hb0 Hb1 H0 H1 H2 H3. unfold Lookup2.
  eapply wfFrom_bind; [now apply AssertIsBoolean_wf|]. intros _ s1 L1 _.
  eapply wfFrom_bind.
  { apply AssertIsBoolean_wf. eapply wfVar_mono; eauto. }
  intros _ s2 L2 _.
  assert (L : (nbVariables b <= nbVariables s2)%nat) by lia.
  destruct b0 as [z0|t0], b1 as [z1|t1];
    try (apply Lookup2_general_wf; eapply wfVar_mono; eauto).
  destruct (negb (fIsOne q (FromInterface q z0))
            && negb (fIsOne q (FromInterface q z1)));
    [apply wfFrom_ret; eapply wfVar_mono; eauto|].
  destruct (fIsOne q (FromInterface q z0)
            && negb (fIsOne q (FromInterface q z1)));
    [apply wfFrom_ret; eapply wfVar_mono; eauto|].
  destruct (fIsOne q (FromInterface q z0) && fIsOne q (FromInterface q z1));
    apply wfFrom_ret; eapply wfVar_mono; eauto.
Qed.

Lemma EvaluatePlonkExpression_wf a c cL cR cM cC b :
  wfVar (nbVariables b) a -> wfVar (nbVariables b) c ->
  wfFrom wfVar (EvaluatePlonkExpression q a c cL cR cM cC) b.
Proof.
  intros Ha Hc.
  assert (Hf : wfFrom wfVar
    (m1 <- Mul q a (Const cL) [] ;;
     m2 <- Mul q c (Const cR) [] ;;
     m3 <- Mul q a c [Const cM] ;;
     Add q m1 m2 [m3; Const cC]) b).
  { eapply wfFrom_bind.
    { apply Mul_wf; [exact Ha|exact I|constructor]. }
    intros m1 s1 L1 M1.
    eapply wfFrom_bind.
    { apply Mul_wf; [eapply wfVar_mono; eauto|exact I|constructor]. }
    intros m2 s2 L2 M2.
    eapply wfFrom_bind.
    { apply Mul_wf; [eapply wfVar_mono; [|exact Ha]; lia
                    |eapply wfVar_mono; [|exact Hc]; lia
                    |constructor; [exact I|constructor]]. }
    intros m3 s3 L3 M3.
    apply Add_wf; [eapply wfVar_mono; [|exact M1]; lia
                  |eapply wfVar_mono; [|exact M2]; lia
                  |constructor; [exact M3|constructor; [exact I|constructor]]]. }
  destruct a as [za|ta], c as [zc|tc]; try exact Hf.
  cbn [EvaluatePlonkExpression wfVar] in *.
  eapply wfFrom_bind; [apply wfFrom_new|]. intros o b1 L1 Ho.
  eapply wfFrom_bind.
  - apply wfFrom_gate. unfold wfGate, wfTerm in *. cbn [xa xb xc]. lia.
  - intros _ b2 L2 _. apply wfFrom_ret. cbn [wfVar].
    unfold wfTerm in *. lia.
Qed.

(** From a builder whose gates refer to allocated wires only, a run that
    keeps [wfFrom] leaves such a builder. *)
Lemma wfFrom_builder {A} (R : nat -> A -> Prop) (m : M A) b a b' :
  wfFrom R m b -> wfBuilder b -> m b = Returned a b' ->
  wfBuilder b' /\ R (nbVariables b') a /\
  (nbVariables b <= nbVariables b')%nat.
Proof.
  intros Hm Hb E. destruct (Hm a b' E) as (L & Ra & gs & X & F).
  split; [|split; [exact Ra|exact L]].
  unfold wfBuilder. rewrite X. apply Forall_app. split; [|exact F].
  eapply Forall_impl; [|exact Hb]. intros g. now apply wfGate_mono.
Qed.


(** [Inverse], [DivUnchecked] and [Div] keep the gates on allocated
    wires. *)
Theorem division_keeps_wires_allocated (i1 i2 : FVariable)
    (b b' : builder) (r : FVariable) :
  wfBuilder b ->
  wfVar (nbVariables b) i1 -> wfVar (nbVariables b) i2 ->
  Inverse q i1 b = Returned r b' \/
  DivUnchecked q i1 i2 b = Returned r b' \/
  Div q i1 i2 b = Returned r b' ->
  wfBuilder b' /\ wfVar (nbVariables b') r /\
  (nbVariables b <= nbVariables b')%nat.
Proof.
  intros Hb H1 H2 [E|[E|E]];
    refine (wfFrom_builder wfVar _ b r b' _ Hb E).
  - now apply Inverse_wf.
  - now apply DivUnchecked_wf.
  - now apply Div_wf.
Qed.

(** [IsZero], [Xor], [Or] and [And] keep the gates on allocated wires,
    the gates of the boolean assertions and the hint wire of [IsZero]
    included. *)
Theorem boolean_keeps_wires_allocated (i1 i2 : FVariable)
    (b b' : builder) (r : FVariable) :
  wfBuilder b ->
  wfVar (nbVariables b) i1 -> wfVar (nbVariables b) i2 ->
  IsZero q i1 b = Returned r b' \/
  Xor q i1 i2 b = Returned r b' \/
  Or q i1 i2 b = Returned r b' \/
  And q i1 i2 b = Returned r b' ->
  wfBuilder b' /\ wfVar (nbVariables b') r /\
  (nbVariables b <= nbVariables b')%nat.
Proof.
  intros Hb H1 H2 [E|[E|[E|E]]];
    refine (wfFrom_builder wfVar _ b r b' _ Hb E).
  - now apply IsZero_wf.
  - now apply Xor_wf.
  - now apply Or_wf.
  - now apply And_wf.
Qed.

(** [Select], [Lookup2] and [EvaluatePlonkExpression] keep the gates on
    allocated wires. *)
Theorem selection_keeps_wires_allocated (c0 c1 i0 i1 i2 i3 : FVariable)
    (cL cR cM cC : Z) (b b' : builder) (r : FVariable) :
  wfBuilder b ->
  wfVar (nbVariables b) c0 -> wfVar (nbVariables b) c1 ->
  wfVar (nbVariables b) i0 -> wfVar (nbVariables b) i1 ->
  wfVar (nbVariables b) i2 -> wfVar (nbVariables b) i3 ->
  Select q c0 i0 i1 b = Returned r b' \/
  Lookup2 q c0 c1 i0 i1 i2 i3 b = Returned r b' \/
  EvaluatePlonkExpression q i0 i1 cL cR cM cC b = Returned r b' ->
  wfBuilder b' /\ wfVar (nbVariables b') r /\
  (nbVariables b <= nbVariables b')%nat.
Proof.
  intros Hb Hc0 Hc1 H0 H1 H2 H3 [E|[E|E]];
    refine (wfFrom_builder wfVar _ b r b' _ Hb E).
  - now apply Select_wf.
  - now apply Lookup2_wf.
  - now apply EvaluatePlonkExpression_wf.
Qed.

End Wires.


(** ** Concrete instances *)

Lemma is_prime_b_sound p : is_prime_b p = true -> Z.prime p.
Proof.
  unfold is_prime_b, no_divisor_below. intros H.
  apply andb_true_iff in H. destruct H as [H1 H2].
  apply Z.ltb_lt in H1. split; [exact H1|].
  intros n Hn Hd.
  rewrite forallb_forall in H2.
  specialize (H2 (Z.to_nat n)).
  rewrite Z2Nat.id in H2 by lia.
  rewrite (Z.mod0_divide _ _ Hd) in H2. cbn in H2.
  assert (Hin : In (Z.to_nat n) (seq 2 (Z.to_nat p - 2))).
  { apply in_seq. lia. }
  specialize (H2 Hin). discriminate.
Qed.





(** [Mul] on an operand list with a term of coefficient 0. *)
Lemma Mul_zero_factor_witness :
  (exists t, In (Wire t) [Wire t1; Wire (mkTerm 2 0); Const 5]) /\
  fIsZero 7 (Coeff (mkTerm 2 0)) = true /\
  Mul 7 (Wire t1) (Wire (mkTerm 2 0)) [Const 5] exampleBuilder
    = Returned (Const 0) exampleBuilder.
Proof.
  assert (Hw : exists t, In (Wire t) [Wire t1; Wire (mkTerm 2 0); Const 5])
    by (exists t1; simpl; auto).
  split; [exact Hw|]. split; [reflexivity|].
  apply (Mul_zero_factor 7 (Wire t1) (Wire (mkTerm 2 0)) [Const 5]
           exampleBuilder Hw).
  right; right. exists (mkTerm 2 0). split; [simpl; auto|reflexivity].
Defined.


(** [MulAcc] where [a] and [c] are both on wire 1. *)
Lemma MulAcc_fast_path_witness :
  Z.prime 7 /\ VID t1 = VID (mkTerm 1 5) /\
  MulAcc 7 (Wire t1) (Wire t2) (Wire (mkTerm 1 5)) exampleBuilder
    = Returned (Wire (mkTerm 3 1))
        (withGates exampleBuilder [mulAccGate 7 t1 t2 (mkTerm 1 5) 3]).
Proof.
  assert (Hp : Z.prime 7) by (apply is_prime_b_sound; reflexivity).
  split; [exact Hp|]. split; [reflexivity|].
  exact (proj1 (MulAcc_fast_path 7 Hp t1 t2 (mkTerm 1 5) exampleBuilder
                  (or_introl eq_refl))).
Defined.

(** Division by the constant 14 at modulus 7. *)
Lemma zero_constant_divisor_panics_witness :
  14 mod 7 = 0 /\
  Div 7 (Wire t1) (Const 14) exampleBuilder
    = Panicked "inverse by constant(0)" exampleBuilder.
Proof.
  split; [reflexivity|].
  exact (proj2 (proj2 (zero_constant_divisor_panics 7 14 (Wire t1)
                         exampleBuilder eq_refl))).
Defined.


(** ** Inputs on which the operations fold their gates away *)



(** Over a small field [Commit] does not panic: the error is returned. *)
Lemma Commit_small_field_no_panic :
  ~ (exists msg b',
       Commit babyBear true [Wire t1] exampleBuilder = Panicked msg b').
Proof.
  intros (msg & b' & E). discriminate E.
Qed.


(** ** Instances at modulus 7 of the statements on the other operations *)

(** [5 + 4 + 12] folds to the constant 0 of the field of 7 elements. *)
Lemma Add_sound_witness :
  Z.prime 7 /\
  Add 7 (Const 5) (Const 4) [Const 12] exampleBuilder
    = Returned (Const 0) exampleBuilder.
Proof.
  assert (Hp : Z.prime 7) by (apply is_prime_b_sound; reflexivity).
  split; [exact Hp|].
  exact (proj2 (Add_sound 7 Hp (Const 5) (Const 4) [Const 12] exampleBuilder)
               eq_refl (fun _ => 0)).
Defined.

Lemma Sub_sound_witness :
  Z.prime 7 /\
  returns (Sub 7 (Wire t1) (Wire t2) [Const 3]) exampleBuilder
    (fun r _ gs =>
       mulGates gs = [] /\
       forall w, Forall (gate_holds 7 w) gs ->
         value 7 w r
         = (value 7 w (Wire t1) - value 7 w (Wire t2)
            - sumValues 7 w [Const 3]) mod 7).
Proof.
  assert (Hp : Z.prime 7) by (apply is_prime_b_sound; reflexivity).
  split; [exact Hp|].
  exact (Sub_sound 7 Hp (Wire t1) (Wire t2) [Const 3] exampleBuilder).
Defined.


(** [3 * 4 * 5] folds to the constant 4 of the field of 7 elements. *)
Lemma Mul_sound_witness :
  Z.prime 7 /\
  Mul 7 (Const 3) (Const 4) [Const 5] exampleBuilder
    = Returned (Const 4) exampleBuilder.
Proof.
  assert (Hp : Z.prime 7) by (apply is_prime_b_sound; reflexivity).
  split; [exact Hp|].
  exact (proj2 (Mul_sound 7 Hp (Const 3) (Const 4) [Const 5] exampleBuilder)
               eq_refl (fun _ => 0)).
Defined.

(** Off the fast track: the accumulator is a constant. *)
Lemma MulAcc_sound_witness :
  Z.prime 7 /\
  returns (MulAcc 7 (Const 2) (Wire t1) (Wire t2)) exampleBuilder
    (fun r _ gs =>
       forall w, Forall (gate_holds 7 w) gs ->
         value 7 w r
         = (value 7 w (Const 2)
            + value 7 w (Wire t1) * value 7 w (Wire t2)) mod 7).
Proof.
  assert (Hp : Z.prime 7) by (apply is_prime_b_sound; reflexivity).
  split; [exact Hp|].
  exact (MulAcc_sound 7 Hp (Const 2) (Wire t1) (Wire t2) exampleBuilder).
Defined.




Lemma Xor_sound_witness :
  Z.prime 7 /\ boolish 7 (Wire t0) /\ boolish 7 (Wire t1) /\
  returns (Xor 7 (Wire t0) (Wire t1)) exampleBuilder
    (fun r _ gs =>
       (List.length gs <= 3)%nat /\
       forall w, Forall (gate_holds 7 w) gs ->
         value 7 w r
         = (value 7 w (Wire t0) + value 7 w (Wire t1)
            - 2 * value 7 w (Wire t0) * value 7 w (Wire t1)) mod 7 /\
         (isBit 7 w (Wire t0) -> isBit 7 w (Wire t1) ->
          value 7 w r
          = Z.lxor (value 7 w (Wire t0)) (value 7 w (Wire t1)))).
Proof.
  assert (Hp : Z.prime 7) by (apply is_prime_b_sound; reflexivity).
  split; [exact Hp|]. split; [exact I|]. split; [exact I|].
  exact (Xor_sound 7 Hp (Wire t0) (Wire t1) exampleBuilder I I).
Defined.

Lemma Or_sound_witness :
  Z.prime 7 /\ boolish 7 (Wire t0) /\ boolish 7 (Wire t1) /\
  returns (Or 7 (Wire t0) (Wire t1)) exampleBuilder
    (fun r _ gs =>
       (List.length gs <= 3)%nat /\
       forall w, Forall (gate_holds 7 w) gs ->
         value 7 w r
         = (value 7 w (Wire t0) + value 7 w (Wire t1)
            - value 7 w (Wire t0) * value 7 w (Wire t1)) mod 7 /\
         (isBit 7 w (Wire t0) -> isBit 7 w (Wire t1) ->
          value 7 w r
          = Z.lor (value 7 w (Wire t0)) (value 7 w (Wire t1)))).
Proof.
  assert (Hp : Z.prime 7) by (apply is_prime_b_sound; reflexivity).
  split; [exact Hp|]. split; [exact I|]. split; [exact I|].
  exact (Or_sound 7 Hp (Wire t0) (Wire t1) exampleBuilder I I).
Defined.

Lemma And_sound_witness :
  Z.prime 7 /\ boolish 7 (Wire t0) /\ boolish 7 (Const 8) /\
  returns (And 7 (Wire t0) (Const 8)) exampleBuilder
    (fun r _ gs =>
       forall w, Forall (gate_holds 7 w) gs ->
         value 7 w r
         = (value 7 w (Wire t0) * value 7 w (Const 8)) mod 7 /\
         (isBit 7 w (Wire t0) -> isBit 7 w (Const 8) ->
          value 7 w r
          = Z.land (value 7 w (Wire t0)) (value 7 w (Const 8)))).
Proof.
  assert (Hp : Z.prime 7) by (apply is_prime_b_sound; reflexivity).
  assert (H8 : boolish 7 (Const 8)) by (right; reflexivity).
  split; [exact Hp|]. split; [exact I|]. split; [exact H8|].
  exact (And_sound 7 Hp (Wire t0) (Const 8) exampleBuilder I H8).
Defined.

(** On the wire already marked in [exampleBuilder] and an unmarked one. *)
Lemma boolean_marks_sound_witness :
  Z.prime 7 /\ boolish 7 (Wire t0) /\ boolish 7 (Wire t1) /\
  returns (Xor 7 (Wire t0) (Wire t1)) exampleBuilder
    (fun r b' gs =>
       forall w, Forall (gate_holds 7 w) gs ->
         marksSound 7 w exampleBuilder ->
         marksSound 7 w b' /\ isBit 7 w r).
Proof.
  assert (Hp : Z.prime 7) by (apply is_prime_b_sound; reflexivity).
  split; [exact Hp|]. split; [exact I|]. split; [exact I|].
  exact (proj1 (proj2 (proj2
           (boolean_marks_sound 7 Hp (Wire t0) (Wire t1) exampleBuilder
              I I)))).
Defined.

(** Two constant selectors, (1, 0): the second input, and no gate. *)
Lemma Lookup2_sound_witness :
  Z.prime 7 /\ boolish 7 (Const 1) /\ boolish 7 (Const 0) /\
  returns (Lookup2 7 (Const 1) (Const 0)
             (Wire t0) (Wire t1) (Wire t2) (Const 4)) exampleBuilder
    (fun r _ gs =>
       exists ga gl, gs = ga ++ gl /\ (List.length ga <= 2)%nat /\
         (List.length (mulGates gl) <= 3)%nat /\
         (isConst (Const 1) = true -> isConst (Const 0) = true -> gs = []) /\
         forall w, Forall (gate_holds 7 w) gs ->
           isBit 7 w (Const 1) -> isBit 7 w (Const 0) ->
           value 7 w r = value 7 w (Wire t1)).
Proof.
  assert (Hp : Z.prime 7) by (apply is_prime_b_sound; reflexivity).
  assert (H1 : boolish 7 (Const 1)) by (right; reflexivity).
  assert (H0 : boolish 7 (Const 0)) by (left; reflexivity).
  split; [exact Hp|]. split; [exact H1|]. split; [exact H0|].
  exact (Lookup2_sound 7 Hp (Const 1) (Const 0)
           (Wire t0) (Wire t1) (Wire t2) (Const 4) exampleBuilder H1 H0).
Defined.


(** A constant among the operands changes nothing. *)
Lemma Commit_ignores_constants_witness :
  wires [Wire t1; Const 5; Wire t2] = wires [Wire t1; Wire t2] /\
  Commit 7 false [Wire t1; Const 5; Wire t2] exampleBuilder
    = Commit 7 false [Wire t1; Wire t2] exampleBuilder.
Proof.
  split; [reflexivity|].
  exact (Commit_ignores_constants 7 false [Wire t1; Const 5; Wire t2]
           [Wire t1; Wire t2] exampleBuilder eq_refl).
Defined.

(** A negative width panics before any decomposition. *)
Lemma ToBinary_width_witness :
  -1 < 0 /\
  ToBinary 7 (digitsToBinary 7) (Wire t1) [-1] exampleBuilder
    = Panicked "invalid n" exampleBuilder.
Proof.
  split; [reflexivity|].
  exact (proj1 (ToBinary_width 7 (digitsToBinary 7) (Wire t1) [-1]
                  exampleBuilder) (-1) eq_refl eq_refl).
Defined.


Lemma Select_rejects_constant_witness :
  Z.prime 7 /\ 2 mod 7 <> 0 /\ 2 mod 7 <> 1 /\
  exists msg,
    Select 7 (Const 2) (Wire t1) (Wire t2) exampleBuilder
    = Panicked msg exampleBuilder.
Proof.
  assert (Hp : Z.prime 7) by (apply is_prime_b_sound; reflexivity).
  assert (H0 : 2 mod 7 <> 0) by discriminate.
  assert (H1 : 2 mod 7 <> 1) by discriminate.
  split; [exact Hp|]. split; [exact H0|]. split; [exact H1|].
  exact (Select_rejects_constant 7 Hp 2 (Wire t1) (Wire t2) exampleBuilder
           H0 H1).
Defined.

(** The three wires of [exampleBuilder] are allocated. *)
Lemma exampleBuilder_wf :
  wfBuilder exampleBuilder /\ wfVar 3 (Wire t0) /\ wfVar 3 (Wire t1) /\
  wfVar 3 (Wire t2).
Proof.
  split; [constructor|]. unfold wfVar, wfTerm. cbn [VID t0 t1 t2]. lia.
Qed.


Lemma division_keeps_wires_allocated_witness :
  wfBuilder exampleBuilder /\ wfVar 3 (Wire t1) /\ wfVar 3 (Wire t2) /\
  exists r b',
    Div 7 (Wire t1) (Wire t2) exampleBuilder = Returned r b' /\
    wfBuilder b' /\ wfVar (nbVariables b') r /\ (3 <= nbVariables b')%nat.
Proof.
  destruct exampleBuilder_wf as (Hb & H0 & H1 & H2).
  split; [exact Hb|]. split; [exact H1|]. split; [exact H2|].
  eexists _, _. split; [reflexivity|].
  exact (division_keeps_wires_allocated 7 (Wire t1) (Wire t2)
           exampleBuilder _ _ Hb H1 H2 (or_intror (or_intror eq_refl))).
Defined.

Lemma boolean_keeps_wires_allocated_witness :
  wfBuilder exampleBuilder /\ wfVar 3 (Wire t1) /\ wfVar 3 (Wire t2) /\
  exists r b',
    Xor 7 (Wire t1) (Wire t2) exampleBuilder = Returned r b' /\
    wfBuilder b' /\ wfVar (nbVariables b') r /\ (3 <= nbVariables b')%nat.
Proof.
  destruct exampleBuilder_wf as (Hb & H0 & H1 & H2).
  split; [exact Hb|]. split; [exact H1|]. split; [exact H2|].
  eexists _, _. split; [lazy; reflexivity|].
  exact (boolean_keeps_wires_allocated 7 (Wire t1) (Wire t2)
           exampleBuilder _ _ Hb H1 H2 (or_intror (or_introl eq_refl))).
Defined.

Lemma selection_keeps_wires_allocated_witness :
  wfBuilder exampleBuilder /\ wfVar 3 (Wire t1) /\ wfVar 3 (Wire t2) /\
  exists r b',
    EvaluatePlonkExpression 7 (Wire t1) (Wire t2) 2 3 4 5 exampleBuilder
      = Returned r b' /\
    wfBuilder b' /\ wfVar (nbVariables b') r /\ (3 <= nbVariables b')%nat.
Proof.
  destruct exampleBuilder_wf as (Hb & H0 & H1 & H2).
  split; [exact Hb|]. split; [exact H1|]. split; [exact H2|].
  eexists _, _. split; [reflexivity|].
  exact (selection_keeps_wires_allocated 7 (Const 0) (Const 0)
           (Wire t1) (Wire t2) (Const 0) (Const 0) 2 3 4 5
           exampleBuilder _ _ Hb I I H1 H2 I I (or_intror (or_intror eq_refl))).
Defined.

Lemma Add_Sub_round_trip_witness :
  Z.prime 7 /\
  returns (s <- Add 7 (Wire t1) (Const 4) [] ;; Sub 7 s (Const 4) [])
    exampleBuilder
    (fun r _ gs =>
       mulGates gs = [] /\
       forall w, Forall (gate_holds 7 w) gs ->
         value 7 w r = value 7 w (Wire t1)).
Proof.
  assert (Hp : Z.prime 7) by (apply is_prime_b_sound; reflexivity).
  split; [exact Hp|].
  exact (Add_Sub_round_trip 7 Hp (Wire t1) (Const 4) exampleBuilder).
Defined.

